(** * siftor-backend: the crawl session of [src/api/server.js]

    A shallow embedding of the WebSocket message handler of the scraping
    server: the request guard, the bounded breadth-first traversal with its
    visited set and URL queue, the per-page section extraction and the link
    discovery, together with the sequence of calls the handler makes on its
    collaborators (puppeteer, the socket).

    Conventions.
    - A JavaScript string is a Rocq [string]; each character stands for one
      code unit below 256.
    - The collaborators are not part of the program.  What they answer is
      supplied by an environment ([Env]); everything the handler does with
      those answers is modelled from the source. *)

From Stdlib Require Import String Ascii List Bool Arith Lia.
From Stdlib Require Import Floats.SpecFloat.
From stdpp Require Import base list.
Import ListNotations.

Local Open Scope string_scope.
Local Open Scope list_scope.

(** ** JavaScript values that reach the handler *)

(** The value [JSON.parse] returns.  The properties of an object are kept
    as an association list read from the front. *)
#[local] Set Warnings "-register-all".
Inductive json : Type :=
| JNull
| JBool (b : bool)
| JNum (x : spec_float)
| JStr (s : string)
| JArr (items : list json)
| JObj (props : list (string * json)).
#[local] Set Warnings "register-all".

(** Numbers under SameValueZero: the two zeros are one value, NaN equals
    itself. *)
Definition num_eqb (x y : spec_float) : bool :=
  match x, y with
  | S754_zero _, S754_zero _ => true
  | S754_nan, S754_nan => true
  | S754_infinity s, S754_infinity t => Bool.eqb s t
  | S754_finite s m e, S754_finite t n f =>
      Bool.eqb s t && Pos.eqb m n && Z.eqb e f
  | _, _ => false
  end.

(** The comparison a [Set] uses on its members.  Every entry of [urlQueue]
    other than the seed is a string pushed by the link loop, so at most one
    value that is not a string ever meets the set, and comparing arrays and
    objects by structure agrees with comparing them by identity there. *)
Fixpoint json_eqb (a b : json) {struct a} : bool :=
  match a, b with
  | JNull, JNull => true
  | JBool x, JBool y => Bool.eqb x y
  | JNum x, JNum y => num_eqb x y
  | JStr s, JStr t => String.eqb s t
  | JArr l, JArr m =>
      (fix items_eqb (l m : list json) {struct l} : bool :=
         match l, m with
         | [], [] => true
         | x :: l', y :: m' => json_eqb x y && items_eqb l' m'
         | _, _ => false
         end) l m
  | JObj l, JObj m =>
      (fix props_eqb (l m : list (string * json)) {struct l} : bool :=
         match l, m with
         | [], [] => true
         | (k, x) :: l', (k', y) :: m' =>
             String.eqb k k' && json_eqb x y && props_eqb l' m'
         | _, _ => false
         end) l m
  | _, _ => false
  end.

(** Reading property [key] of a parsed value: [None] is [undefined].
    Only objects parsed from JSON carry a property of that name. *)
Fixpoint assoc (key : string) (props : list (string * json)) : option json :=
  match props with
  | [] => None
  | (k, v) :: rest => if String.eqb k key then Some v else assoc key rest
  end.

(** [!v] is false: the truthiness of a value, [None] being [undefined]. *)
Definition truthy (v : option json) : bool :=
  match v with
  | None => false
  | Some JNull => false
  | Some (JBool b) => b
  | Some (JNum (S754_zero _)) => false
  | Some (JNum S754_nan) => false
  | Some (JNum _) => true
  | Some (JStr s) => negb (String.eqb s "")
  | Some (JArr _) => true
  | Some (JObj _) => true
  end.

(** ** The [Set] of visited URLs

    A JavaScript [Set] keeps its members in insertion order, without
    repetition. *)
Module JSSet.

Definition t := list json.

Definition empty : t := [].

Definition has (s : t) (v : json) : bool := existsb (json_eqb v) s.

Definition add (s : t) (v : json) : t := if has s v then s else s ++ [v].

Definition size (s : t) : nat := List.length s.

End JSSet.

(** ** Strings *)

(** The white space and line terminators below 256 that
    [String.prototype.trim] removes. *)
Definition is_space (c : ascii) : bool :=
  match nat_of_ascii c with
  | 9 | 10 | 11 | 12 | 13 | 32 | 160 => true
  | _ => false
  end.

Fixpoint trimStart (s : string) : string :=
  match s with
  | EmptyString => EmptyString
  | String c s' => if is_space c then trimStart s' else s
  end.

Fixpoint trimEnd (s : string) : string :=
  match s with
  | EmptyString => EmptyString
  | String c s' =>
      match trimEnd s' with
      | EmptyString => if is_space c then EmptyString else String c EmptyString
      | t => String c t
      end
  end.

Definition trim (s : string) : string := trimEnd (trimStart s).

(** [s.startsWith(p)] *)
Definition startsWith (s p : string) : bool := String.prefix p s.

(** A string is falsy exactly when it is empty. *)
Definition nonempty (s : string) : bool := negb (String.eqb s "").

(** ** The rendered document

    What cheerio exposes of a loaded page: its elements in document order,
    each with its lower-cased tag name, its text (the concatenated text of
    its descendants) and its [href] attribute when it has one. *)
Record element := Element {
  tagName : string;
  elemText : string;
  href : option string
}.

Definition Document := list element.

(** The selector ['h1, h2, h3, h4, h5, h6, p, span, li, pre, code']. *)
Definition content_tags : list string :=
  ["h1"; "h2"; "h3"; "h4"; "h5"; "h6"; "p"; "span"; "li"; "pre"; "code"].

Definition matches_content (e : element) : bool :=
  existsb (String.eqb (tagName e)) content_tags.

(** The selector ['a[href]']. *)
Definition matches_anchor (e : element) : bool :=
  String.eqb (tagName e) "a" && match href e with Some _ => true | None => false end.

(** ** The extractor (server.js, lines 118-139) *)

Record Item := mkItem { tag : string; text : string }.

Record Section_ := mkSection { title : string; content : list Item }.

(** The two variables the [each] callback updates. *)
Record extractor := mkExtractor {
  pageData : list Section_;
  currentSection : Section_
}.

Definition extractor_init : extractor :=
  mkExtractor [] (mkSection "" []).

(** [section.content.length > 0] *)
Definition has_content (s : Section_) : bool :=
  Nat.ltb 0 (List.length (content s)).

(** One call of the [each] callback. *)
Definition extract_element (st : extractor) (e : element) : extractor :=
  let tag := tagName e in
  let text := trim (elemText e) in
  if nonempty text then
    if startsWith tag "h" then
      mkExtractor
        (if has_content (currentSection st)
         then pageData st ++ [currentSection st]
         else pageData st)
        (mkSection text [])
    else
      mkExtractor
        (pageData st)
        (mkSection (title (currentSection st))
                   (content (currentSection st) ++ [mkItem tag text]))
  else st.

(** The flush after the walk. *)
Definition extract_finish (st : extractor) : list Section_ :=
  if has_content (currentSection st)
  then pageData st ++ [currentSection st]
  else pageData st.

Definition extract (doc : Document) : list Section_ :=
  extract_finish
    (fold_left extract_element (List.filter matches_content doc)
               extractor_init).

(** ** Messages and calls *)

Record PageRecord := mkPage { url : json; data : list Section_ }.

(** The objects the handler serialises onto the socket. *)
Inductive server_msg :=
| Connected
| Visiting (currentUrl : json)
| ScrapedData (records : list PageRecord)
| Error (message : string).

(** What the handler does, in order.  [ok = false] records that the call
    threw (or its promise rejected).  [Shift u seen] is [urlQueue.shift()]
    returning [u], with the answer of [visitedUrls.has(u)].  [Content u d]
    is [page.content()] on the page that went to [u], loaded by cheerio as
    [d]; [None] when it throws. *)
Inductive action :=
| Launch (ok : bool)
| NewPage (ok : bool)
| Shift (u : json) (seen : bool)
| Send (m : server_msg) (ok : bool)
| Goto (u : json) (ok : bool)
| Content (u : json) (result : option Document)
| Close (ok : bool).

(** The answers of the collaborators.  The calls made inside the loop are
    indexed by the iteration that makes them; [URL_origin] and [URL_href]
    are [new URL(url).origin] and [new URL(link, base).href], [None] when
    the constructor throws. *)
Record Env := mkEnv {
  launch_ok : bool;
  newPage_ok : bool;
  URL_origin : json -> option string;
  URL_href : string -> string -> option string;
  visiting_sent : nat -> bool;
  goto_ok : nat -> json -> bool;
  page_content : nat -> json -> option Document;
  close_ok : bool;
  close_in_catch_ok : bool;
  reply_sent : bool
}.

Definition MAX_PAGES : nat := 1000.
Arguments MAX_PAGES : simpl never.

(** ** The crawl session (server.js, lines 81-179) *)

Record state := mkState {
  urlQueue : list json;
  visitedUrls : JSSet.t;
  scrapedData : list PageRecord
}.

(** How one pass through the loop body ends: it reaches the loop test again
    (also by [continue]), leaves by [break], or throws. *)
Inductive completion := Normal | Break | Throw.

(** How the handler ends: it returns, or an exception escapes it and its
    promise rejects. *)
Inductive ending := Returned | Uncaught.

(** A finished run of the handler: the calls made, the state the loop left
    when it was entered, and how the handler ended. *)
Record run := mkRun {
  trace : list action;
  final : option state;
  ended : ending
}.

(** The outcome of [JSON.parse(message)]. *)
Inductive parsed := ParseThrows | Parsed (msgData : json).

Section Session.

Variable env : Env.

(** The callback of the link loop (lines 143-155) on one anchor. *)
Definition link_step (baseUrl : string) (visited : JSSet.t)
    (queue : list json) (e : element) : list json :=
  match href e with
  | Some link =>
      if nonempty link && negb (JSSet.has visited (JStr link)) then
        match URL_href env link baseUrl with
        | Some absoluteLink =>
            if startsWith absoluteLink baseUrl
            then queue ++ [JStr absoluteLink]
            else queue
        | None => queue
        end
      else queue
  | None => queue
  end.

Definition push_links (baseUrl : string) (visited : JSSet.t)
    (queue : list json) (doc : Document) : list json :=
  fold_left (link_step baseUrl visited) (List.filter matches_anchor doc) queue.

(** The loop body on [currentUrl], just shifted off the queue of [st]. *)
Definition iteration (baseUrl : string) (n : nat) (currentUrl : json)
    (st : state) : completion * state * list action :=
  if JSSet.has (visitedUrls st) currentUrl then
    (Normal, st, [Shift currentUrl true])
  else if negb (visiting_sent env n) then
    (Break, st, [Shift currentUrl false; Send (Visiting currentUrl) false])
  else if negb (goto_ok env n currentUrl) then
    (Normal, st,
     [Shift currentUrl false; Send (Visiting currentUrl) true;
      Goto currentUrl false])
  else
    match page_content env n currentUrl with
    | None =>
        (Throw, st,
         [Shift currentUrl false; Send (Visiting currentUrl) true;
          Goto currentUrl true; Content currentUrl None])
    | Some doc =>
        (Normal,
         mkState
           (push_links baseUrl (visitedUrls st) (urlQueue st) doc)
           (JSSet.add (visitedUrls st) currentUrl)
           (scrapedData st ++ [mkPage currentUrl (extract doc)]),
         [Shift currentUrl false; Send (Visiting currentUrl) true;
          Goto currentUrl true; Content currentUrl (Some doc)])
    end.

(** The [while] loop, iteration [n] onwards.  [None]: out of fuel. *)
Fixpoint loop (baseUrl : string) (fuel n : nat) (st : state)
    : option (completion * state * list action) :=
  match urlQueue st with
  | [] => Some (Normal, st, [])
  | currentUrl :: rest =>
      if Nat.ltb (JSSet.size (visitedUrls st)) MAX_PAGES then
        match fuel with
        | 0 => None
        | S fuel' =>
            match
              iteration baseUrl n currentUrl
                (mkState rest (visitedUrls st) (scrapedData st))
            with
            | (Normal, st', acts) =>
                match loop baseUrl fuel' (S n) st' with
                | Some (c, st'', acts') => Some (c, st'', acts ++ acts')
                | None => None
                end
            | (c, st', acts) => Some (c, st', acts)
            end
        end
      else Some (Normal, st, [])
  end.

Definition initial (url : json) : state := mkState [url] JSSet.empty [].

(** The [catch] block of lines 169-179; [browser] tells whether the
    variable was assigned. *)
Definition catch_block (browser : bool) : list action :=
  Send (Error "An unexpected error occurred.") (reply_sent env)
  :: (if browser then [Close (close_in_catch_ok env)] else []).

(** The [browser.close()] of the [catch] block is not inside a [try]. *)
Definition catch_ending (browser : bool) : ending :=
  if browser && negb (close_in_catch_ok env) then Uncaught else Returned.

Definition session (fuel : nat) (url : json) : option run :=
  if negb (launch_ok env) then
    Some (mkRun (Launch false :: catch_block false) None
                (catch_ending false))
  else if negb (newPage_ok env) then
    Some (mkRun ([Launch true; NewPage false] ++ catch_block true) None
                (catch_ending true))
  else
    match URL_origin env url with
    | None =>
        Some (mkRun ([Launch true; NewPage true] ++ catch_block true) None
                    (catch_ending true))
    | Some baseUrl =>
        match loop baseUrl fuel 0 (initial url) with
        | None => None
        | Some (Throw, st, acts) =>
            Some (mkRun ([Launch true; NewPage true] ++ acts
                         ++ catch_block true) (Some st)
                        (catch_ending true))
        | Some (_, st, acts) =>
            if close_ok env then
              Some (mkRun ([Launch true; NewPage true] ++ acts
                           ++ [Close true;
                               Send (ScrapedData (scrapedData st))
                                    (reply_sent env)]) (Some st)
                          Returned)
            else
              Some (mkRun ([Launch true; NewPage true] ++ acts
                           ++ Close false :: catch_block true) (Some st)
                          (catch_ending true))
        end
    end.

(** ** The request guard (lines 62-79) *)

(** [const { url } = msgData]: [None] when the destructuring throws a
    [TypeError] (on [null]), otherwise the property, [Some None] being
    [undefined]. *)
Definition destructure_url (msgData : json) : option (option json) :=
  match msgData with
  | JNull => None
  | JObj props => Some (assoc "url" props)
  | _ => Some None
  end.

(** The reply of the guard: the [ws.send] is not inside a [try]. *)
Definition reject (message : string) : run :=
  mkRun [Send (Error message) (reply_sent env)] None
        (if reply_sent env then Returned else Uncaught).

Definition on_message (fuel : nat) (message : parsed) : option run :=
  match message with
  | ParseThrows => Some (reject "Invalid message format")
  | Parsed msgData =>
      match destructure_url msgData with
      | None => Some (mkRun [] None Uncaught)
      | Some url =>
          if truthy url then
            match url with
            | Some v => session fuel v
            | None => Some (reject "URL is required")
            end
          else Some (reject "URL is required")
      end
  end.

End Session.

(** ** Reading a trace *)

(** The messages that reached the client. *)
Definition outbound (t : list action) : list server_msg :=
  omap (fun a => match a with Send m true => Some m | _ => None end) t.

(** The URLs of the [visiting] events that reached the client. *)
Definition visiting_events (t : list action) : list json :=
  omap (fun a => match a with Send (Visiting u) true => Some u | _ => None end) t.

(** The navigation attempts with their outcome, and their URLs. *)
Definition attempts (t : list action) : list (json * bool) :=
  omap (fun a => match a with Goto u ok => Some (u, ok) | _ => None end) t.

Definition navigations (t : list action) : list json := (attempts t).*1.

(** The URLs shifted off the queue, and those among them that the visited
    set did not hold. *)
Definition shifted (t : list action) : list json :=
  omap (fun a => match a with Shift u _ => Some u | _ => None end) t.

Definition shifted_fresh (t : list action) : list json :=
  omap (fun a => match a with Shift u false => Some u | _ => None end) t.

(** The page records the trace accounts for: one per page whose content was
    read. *)
Definition records (t : list action) : list PageRecord :=
  omap (fun a => match a with
                 | Content u (Some doc) => Some (mkPage u (extract doc))
                 | _ => None
                 end) t.

(** A call on the browser or its page. *)
Definition uses_browser (a : action) : bool :=
  match a with
  | NewPage _ | Goto _ _ | Content _ _ | Close _ => true
  | _ => false
  end.

(** The elements the extractor acts on: those the selector matches whose
    trimmed text is not empty. *)
Definition effective (doc : Document) : list element :=
  List.filter (fun e => matches_content e && nonempty (trim (elemText e))) doc.

Definition is_heading (e : element) : bool := startsWith (tagName e) "h".

(** ** A sample site

    The pages of [https://a.example] used to run the model: the answers of
    [URL] on the links these pages carry, a home page given as a parameter,
    a page that cannot be reached and two that can. *)
Module Sample.

Definition origin : string := "https://a.example".
Definition home : string := "https://a.example/".
Definition page2 : string := "https://a.example/page2".
Definition page3 : string := "https://a.example/page3".
Definition page4 : string := "https://a.example/page4".

Definition URL_origin (v : json) : option string :=
  match v with
  | JStr s => if String.eqb s home then Some origin else None
  | _ => None
  end.

Fixpoint lookup (k : string) (table : list (string * string)) : option string :=
  match table with
  | [] => None
  | (k', v) :: rest => if String.eqb k k' then Some v else lookup k rest
  end.

Definition URL_href (link base : string) : option string :=
  if String.eqb base origin then
    lookup link
      [ ("", home); ("/", home); ("/page2", page2); ("/page3", page3);
        ("/page4", page4); (home, home); (page2, page2); (page3, page3);
        ("https://other.example/x", "https://other.example/x") ]
  else None.

Definition anchor (link : string) : element := Element "a" "link" (Some link).

(** [<h1>A</h1><p>x</p><h2>B</h2>] as cheerio loads it. *)
Definition boundary_doc : Document :=
  [ Element "html" "AxB" None; Element "head" "" None;
    Element "body" "AxB" None; Element "h1" "A" None;
    Element "p" "x" None; Element "h2" "B" None ].

(** Text before the first heading, an empty paragraph, two headings in a
    row. *)
Definition leading_doc : Document :=
  [ Element "p" " intro " None; Element "p" "  " None;
    Element "h1" "One" None; Element "h2" "Two" None;
    Element "li" "item" None ].

Definition headings_doc : Document :=
  [ Element "h1" "One" None; Element "div" "text" None;
    Element "h2" " Two " None; Element "span" " " None ].

(** A page with links and nothing the extractor keeps. *)
Definition bare_doc : Document :=
  [ Element "div" "menu" None; anchor "/page3"; Element "p" "   " None ].

Definition leaf_doc : Document :=
  [ Element "h1" "Leaf" None; Element "p" "text" None ].

Definition site (home_doc : Document) : Env :=
  mkEnv true true URL_origin URL_href
    (fun _ => true)
    (fun _ u => negb (json_eqb u (JStr page2)))
    (fun _ u =>
       if json_eqb u (JStr home) then Some home_doc
       else if json_eqb u (JStr page4) then Some bare_doc
       else Some leaf_doc)
    true true true.

(** The home page of the failure scenario: links to [page2], which cannot
    be reached, and to [page3]. *)
Definition two_links : Document :=
  [ Element "h1" "Home" None; Element "p" "welcome" None;
    anchor "/page2"; anchor "/page3" ].

(** A home page that repeats its links. *)
Definition repeated_links : Document :=
  [ Element "h1" "Home" None; anchor "/page2"; anchor "/page2";
    anchor "/page3"; anchor "/page3" ].

Definition bare_link : Document :=
  [ Element "h1" "Home" None; Element "p" "welcome" None; anchor "/page4" ].

(** The same site on a day when reading the content of a page throws after
    the first page. *)
Definition breaking : Env :=
  mkEnv true true URL_origin URL_href
    (fun _ => true)
    (fun _ _ => true)
    (fun n _ => if Nat.eqb n 0 then Some two_links else None)
    true true true.

(** The same site with a browser whose [close] throws each time it is
    called. *)
Definition stuck : Env :=
  mkEnv true true URL_origin URL_href
    (fun _ => true)
    (fun _ u => negb (json_eqb u (JStr page2)))
    (fun _ u => if json_eqb u (JStr home) then Some two_links
                else Some leaf_doc)
    false false true.

End Sample.

(** ** Vocabulary of the statements *)

(** The states of the session after [n] runs of the loop body. *)
Inductive reachable (env : Env) (baseUrl : string) (url : json)
  : nat -> state -> Prop :=
| reach_initial : reachable env baseUrl url 0 (initial url)
| reach_iteration n currentUrl rest visited scraped c st' acts :
    reachable env baseUrl url n (mkState (currentUrl :: rest) visited scraped) ->
    JSSet.size visited < MAX_PAGES ->
    iteration env baseUrl n currentUrl (mkState rest visited scraped)
      = (c, st', acts) ->
    reachable env baseUrl url (S n) st'.

(** The five ways through the loop body. *)
Inductive iteration_case (env : Env) (baseUrl : string) (n : nat)
    (u : json) (st : state) : completion * state * list action -> Prop :=
| case_seen :
    JSSet.has (visitedUrls st) u = true ->
    iteration_case env baseUrl n u st (Normal, st, [Shift u true])
| case_send_fails :
    JSSet.has (visitedUrls st) u = false ->
    visiting_sent env n = false ->
    iteration_case env baseUrl n u st
      (Break, st, [Shift u false; Send (Visiting u) false])
| case_goto_fails :
    JSSet.has (visitedUrls st) u = false ->
    visiting_sent env n = true ->
    goto_ok env n u = false ->
    iteration_case env baseUrl n u st
      (Normal, st, [Shift u false; Send (Visiting u) true; Goto u false])
| case_content_fails :
    JSSet.has (visitedUrls st) u = false ->
    visiting_sent env n = true ->
    goto_ok env n u = true ->
    page_content env n u = None ->
    iteration_case env baseUrl n u st
      (Throw, st,
       [Shift u false; Send (Visiting u) true; Goto u true; Content u None])
| case_visited doc :
    JSSet.has (visitedUrls st) u = false ->
    visiting_sent env n = true ->
    goto_ok env n u = true ->
    page_content env n u = Some doc ->
    iteration_case env baseUrl n u st
      (Normal,
       mkState (push_links env baseUrl (visitedUrls st) (urlQueue st) doc)
               (JSSet.add (visitedUrls st) u)
               (scrapedData st ++ [mkPage u (extract doc)]),
       [Shift u false; Send (Visiting u) true; Goto u true;
        Content u (Some doc)]).

(** The head of the output once a section titled [t] holds content and
    nothing was flushed before it. *)
Definition leads_with (t : string) (st : extractor) : Prop :=
  match pageData st with
  | [] => title (currentSection st) = t /\ has_content (currentSection st) = true
  | s :: _ => title s = t
  end.

(** No URL is attempted again after an attempt on it succeeded. *)
Fixpoint no_revisit (l : list (json * bool)) : Prop :=
  match l with
  | [] => True
  | (u, ok) :: l' => (ok = true -> u ∉ l'.*1) /\ no_revisit l'
  end.

(** Every navigation comes right after the delivery of its [visiting]
    event. *)
Inductive announced : list action -> Prop :=
| announced_nil : announced []
| announced_goto u ok t :
    announced t -> announced (Send (Visiting u) true :: Goto u ok :: t)
| announced_other a t :
    (forall u ok, a <> Goto u ok) -> announced t -> announced (a :: t).

(** The calls the loop makes. *)
Definition loop_action (a : action) : bool :=
  match a with
  | Shift _ _ | Send (Visiting _) _ | Goto _ _ | Content _ _ => true
  | _ => false
  end.

(** The sending of the final result. *)
Definition is_result (a : action) : bool :=
  match a with
  | Send (ScrapedData _) _ => true
  | _ => false
  end.

(** The URLs whose [visiting] event the handler tried to send. *)
Definition visiting_sends (t : list action) : list json :=
  omap (fun a => match a with Send (Visiting u) _ => Some u | _ => None end) t.

(** The shapes of a finished session: the three failures before the loop,
    a loop that threw, and a loop that ended, with the browser closing or
    not. *)
Inductive session_shape (env : Env) (url : json) : run -> Prop :=
| shape_no_browser :
    launch_ok env = false ->
    session_shape env url
      (mkRun (Launch false :: catch_block env false) None
             (catch_ending env false))
| shape_no_page :
    launch_ok env = true -> newPage_ok env = false ->
    session_shape env url
      (mkRun ([Launch true; NewPage false] ++ catch_block env true) None
             (catch_ending env true))
| shape_no_origin :
    launch_ok env = true -> newPage_ok env = true ->
    URL_origin env url = None ->
    session_shape env url
      (mkRun ([Launch true; NewPage true] ++ catch_block env true) None
             (catch_ending env true))
| shape_thrown baseUrl fuel st acts :
    launch_ok env = true -> newPage_ok env = true ->
    URL_origin env url = Some baseUrl ->
    loop env baseUrl fuel 0 (initial url) = Some (Throw, st, acts) ->
    session_shape env url
      (mkRun ([Launch true; NewPage true] ++ acts ++ catch_block env true)
             (Some st) (catch_ending env true))
| shape_done baseUrl fuel c st acts :
    launch_ok env = true -> newPage_ok env = true ->
    URL_origin env url = Some baseUrl ->
    loop env baseUrl fuel 0 (initial url) = Some (c, st, acts) ->
    c <> Throw ->
    close_ok env = true ->
    session_shape env url
      (mkRun ([Launch true; NewPage true] ++ acts
              ++ [Close true;
                  Send (ScrapedData (scrapedData st)) (reply_sent env)])
             (Some st) Returned)
| shape_close_fails baseUrl fuel c st acts :
    launch_ok env = true -> newPage_ok env = true ->
    URL_origin env url = Some baseUrl ->
    loop env baseUrl fuel 0 (initial url) = Some (c, st, acts) ->
    c <> Throw ->
    close_ok env = false ->
    session_shape env url
      (mkRun ([Launch true; NewPage true] ++ acts
              ++ Close false :: catch_block env true)
             (Some st) (catch_ending env true)).

(** ** The keepalive (server.js, lines 42-49 and 184-198)

    One socket as the keepalive sees it: open, with its [isAlive] flag, or
    terminated.  A terminated socket is closed and leaves [wss.clients]; no
    event reaches it any more. *)
Module Keepalive.

Inductive socket := Open (isAlive : bool) | Terminated.

(** [ws.isAlive = true] of the connection handler. *)
Definition connected : socket := Open true.

(** The [pong] handler. *)
Definition heartbeat (s : socket) : socket :=
  match s with
  | Open _ => Open true
  | Terminated => Terminated
  end.

(** The callback of the interval on one client; [ping_ok = false] when
    [ws.ping()] throws. *)
Definition check (ping_ok : bool) (s : socket) : socket :=
  match s with
  | Open false => Terminated
  | Open true => if ping_ok then Open false else Terminated
  | Terminated => Terminated
  end.

(** What happens to a socket: a pong arrives, or the interval fires. *)
Inductive event := Pong | Tick (ping_ok : bool).

Definition step (s : socket) (e : event) : socket :=
  match e with
  | Pong => heartbeat s
  | Tick ping_ok => check ping_ok s
  end.

Definition run (evs : list event) (s : socket) : socket :=
  fold_left step evs s.

(** Two firings of the interval with no pong in between. *)
Definition unanswered (evs : list event) : Prop :=
  exists pre a b post, evs = pre ++ Tick a :: Tick b :: post.

End Keepalive.

(** ** The handler of [src/unnamed/part_001]

    The same handler in another version of the server (lines 34-128 of that
    file).  It differs from [server.js] in what it leaves unguarded:
    [JSON.parse], the sending of the [visiting] event, of the result and of
    the error message of the [catch] block are not inside a [try].  The
    extraction and the link loop are the same, line for line.

    It also passes other options to puppeteer: [launch()] without the
    sandbox flags of [server.js], [goto] without a timeout.  [Launch] and
    [Goto] record a call and its outcome, not its options; the environment
    given to this handler holds the answers to its own calls. *)
Module Part001.

(** The loop body (lines 56-113): when the [visiting] event cannot be sent
    the exception leaves the loop. *)
Definition iteration (env : Env) (baseUrl : string) (n : nat)
    (currentUrl : json) (st : state) : completion * state * list action :=
  if JSSet.has (visitedUrls st) currentUrl then
    (Normal, st, [Shift currentUrl true])
  else if negb (visiting_sent env n) then
    (Throw, st, [Shift currentUrl false; Send (Visiting currentUrl) false])
  else if negb (goto_ok env n currentUrl) then
    (Normal, st,
     [Shift currentUrl false; Send (Visiting currentUrl) true;
      Goto currentUrl false])
  else
    match page_content env n currentUrl with
    | None =>
        (Throw, st,
         [Shift currentUrl false; Send (Visiting currentUrl) true;
          Goto currentUrl true; Content currentUrl None])
    | Some doc =>
        (Normal,
         mkState
           (push_links env baseUrl (visitedUrls st) (urlQueue st) doc)
           (JSSet.add (visitedUrls st) currentUrl)
           (scrapedData st ++ [mkPage currentUrl (extract doc)]),
         [Shift currentUrl false; Send (Visiting currentUrl) true;
          Goto currentUrl true; Content currentUrl (Some doc)])
    end.

Fixpoint loop (env : Env) (baseUrl : string) (fuel n : nat) (st : state)
    : option (completion * state * list action) :=
  match urlQueue st with
  | [] => Some (Normal, st, [])
  | currentUrl :: rest =>
      if Nat.ltb (JSSet.size (visitedUrls st)) MAX_PAGES then
        match fuel with
        | 0 => None
        | S fuel' =>
            match
              iteration env baseUrl n currentUrl
                (mkState rest (visitedUrls st) (scrapedData st))
            with
            | (Normal, st', acts) =>
                match loop env baseUrl fuel' (S n) st' with
                | Some (c, st'', acts') => Some (c, st'', acts ++ acts')
                | None => None
                end
            | (c, st', acts) => Some (c, st', acts)
            end
        end
      else Some (Normal, st, [])
  end.

(** The [catch] block (lines 121-127): when the error message cannot be
    sent, the exception leaves the handler before [browser.close()]. *)
Definition catch_block (env : Env) (sent browser : bool) : list action :=
  Send (Error "An unexpected error occurred.") sent
  :: (if sent && browser then [Close (close_in_catch_ok env)] else []).

Definition catch_ending (env : Env) (sent browser : bool) : ending :=
  if sent
  then (if browser && negb (close_in_catch_ok env) then Uncaught else Returned)
  else Uncaught.

(** The session (lines 44-127).  [resent] answers the [ws.send] of the
    [catch] block when it follows a result that could not be sent; every
    other terminal message is answered by [reply_sent]. *)
Definition session (env : Env) (resent : bool) (fuel : nat) (url : json)
    : option run :=
  if negb (launch_ok env) then
    Some (mkRun (Launch false :: catch_block env (reply_sent env) false) None
                (catch_ending env (reply_sent env) false))
  else if negb (newPage_ok env) then
    Some (mkRun ([Launch true; NewPage false]
                 ++ catch_block env (reply_sent env) true) None
                (catch_ending env (reply_sent env) true))
  else
    match URL_origin env url with
    | None =>
        Some (mkRun ([Launch true; NewPage true]
                     ++ catch_block env (reply_sent env) true) None
                    (catch_ending env (reply_sent env) true))
    | Some baseUrl =>
        match loop env baseUrl fuel 0 (initial url) with
        | None => None
        | Some (Throw, st, acts) =>
            Some (mkRun ([Launch true; NewPage true] ++ acts
                         ++ catch_block env (reply_sent env) true) (Some st)
                        (catch_ending env (reply_sent env) true))
        | Some (_, st, acts) =>
            if close_ok env then
              if reply_sent env then
                Some (mkRun ([Launch true; NewPage true] ++ acts
                             ++ [Close true;
                                 Send (ScrapedData (scrapedData st)) true])
                            (Some st) Returned)
              else
                Some (mkRun ([Launch true; NewPage true] ++ acts
                             ++ [Close true;
                                 Send (ScrapedData (scrapedData st)) false]
                             ++ catch_block env resent true)
                            (Some st) (catch_ending env resent true))
            else
              Some (mkRun ([Launch true; NewPage true] ++ acts
                           ++ Close false
                              :: catch_block env (reply_sent env) true)
                          (Some st) (catch_ending env (reply_sent env) true))
        end
    end.

(** The handler (lines 34-43): [JSON.parse] is not inside a [try]. *)
Definition on_message (env : Env) (resent : bool) (fuel : nat)
    (message : parsed) : option run :=
  match message with
  | ParseThrows => Some (mkRun [] None Uncaught)
  | Parsed msgData =>
      match destructure_url msgData with
      | None => Some (mkRun [] None Uncaught)
      | Some url =>
          if truthy url then
            match url with
            | Some v => session env resent fuel v
            | None => Some (reject env "URL is required")
            end
          else Some (reject env "URL is required")
      end
  end.

End Part001.

(** ** Vocabulary of the further properties *)

(** Two environments that answer alike: every call gets from the one the
    answer the matching call gets from the other. *)
Definition same_answers (e1 e2 : Env) : Prop :=
  launch_ok e1 = launch_ok e2
  /\ newPage_ok e1 = newPage_ok e2
  /\ (forall v, URL_origin e1 v = URL_origin e2 v)
  /\ (forall link base, URL_href e1 link base = URL_href e2 link base)
  /\ (forall n, visiting_sent e1 n = visiting_sent e2 n)
  /\ (forall n u, goto_ok e1 n u = goto_ok e2 n u)
  /\ (forall n u, page_content e1 n u = page_content e2 n u)
  /\ close_ok e1 = close_ok e2
  /\ close_in_catch_ok e1 = close_in_catch_ok e2
  /\ reply_sent e1 = reply_sent e2.

(** The messages a handler tried to send, in order, each with whether it
    went out. *)
Definition sends (t : list action) : list (server_msg * bool) :=
  omap (fun a => match a with Send m ok => Some (m, ok) | _ => None end) t.

(** What is seen of a run without looking at the calls on puppeteer: the
    messages, the state left, and how the handler ended. *)
Definition client_view (r : run)
    : list (server_msg * bool) * option state * ending :=
  (sends (trace r), final r, ended r).

(** The item the extractor makes of a content element. *)
Definition item_of (e : element) : Item :=
  mkItem (tagName e) (trim (elemText e)).

Definition heading_text (e : element) : string := trim (elemText e).

(** All the items of a list of sections, in order. *)
Definition contents (l : list Section_) : list Item :=
  List.concat (map content l).

(** What the extractor holds at a point of the walk: the items gathered so
    far and the titles met so far. *)
Definition gathered (st : extractor) : list Item :=
  contents (pageData st) ++ content (currentSection st).

Definition titles_of (st : extractor) : list string :=
  map title (pageData st) ++ [title (currentSection st)].

(** A document that is empty for the extractor or begins, for it, with a
    heading. *)
Definition starts_with_heading (doc : Document) : Prop :=
  match effective doc with
  | [] => True
  | e :: _ => is_heading e = true
  end.

(** The URL an action of the loop is about. *)
Definition action_url (a : action) : option json :=
  match a with
  | Shift u _ | Send (Visiting u) _ | Goto u _ | Content u _ => Some u
  | _ => None
  end.

(** Within the scope of a session: the seed itself, or a string that starts
    with the base. *)
Definition in_scope (url : json) (baseUrl : string) (v : json) : Prop :=
  v = url \/ exists s, v = JStr s /\ startsWith s baseUrl = true.

(** An anchor of [doc] whose link the link loop accepts as [s]. *)
Definition accepted_link (env : Env) (baseUrl : string) (visited : JSSet.t)
    (doc : Document) (s : string) : Prop :=
  exists e link,
    e ∈ doc /\ matches_anchor e = true /\ href e = Some link
    /\ nonempty link = true /\ JSSet.has visited (JStr link) = false
    /\ URL_href env link baseUrl = Some s /\ startsWith s baseUrl = true.

(** The terminal message of a session: the result or an error. *)
Definition is_reply (a : action) : bool :=
  match a with
  | Send (ScrapedData _) _ | Send (Error _) _ => true
  | _ => false
  end.

(** The two failures that end the loop: a [visiting] event that could not
    be sent, and a page whose content could not be read. *)
Definition stops_loop (a : action) : bool :=
  match a with
  | Send (Visiting _) false | Content _ None => true
  | _ => false
  end.

(** A failed call on the browser or its page, navigation apart. *)
Definition renderer_failure (a : action) : bool :=
  match a with
  | Launch false | NewPage false | Content _ None | Close false => true
  | _ => false
  end.

(** The links a trace accounts for: those the link loop accepted on each
    page whose content was read, page after page, the visited set growing
    with each page. *)
Fixpoint discovered (env : Env) (baseUrl : string) (visited : JSSet.t)
    (t : list action) : list json :=
  match t with
  | [] => []
  | Content u (Some doc) :: t' =>
      push_links env baseUrl visited [] doc
      ++ discovered env baseUrl (JSSet.add visited u) t'
  | _ :: t' => discovered env baseUrl visited t'
  end.

(** * Properties *)

(** ** Values and the visited set *)

Lemma num_eqb_refl (x : spec_float) : num_eqb x x = true.
Proof.
  destruct x as [s|s| |s m e]; simpl; try reflexivity.
  - now destruct s.
  - rewrite Pos.eqb_refl, Z.eqb_refl. now destruct s.
Qed.

Lemma json_eqb_refl (a : json) : json_eqb a a = true.
Proof.
  revert a. fix json_eqb_refl 1.
  intros [|b|x|s|items|props]; simpl.
  - reflexivity.
  - now destruct b.
  - apply num_eqb_refl.
  - apply String.eqb_refl.
  - induction items as [|x l IH]; [reflexivity|].
    rewrite (json_eqb_refl x). exact IH.
  - induction props as [|[k x] l IH]; [reflexivity|].
    rewrite String.eqb_refl, (json_eqb_refl x). exact IH.
Qed.

Lemma has_of_elem (s : JSSet.t) (v : json) :
  v ∈ s -> JSSet.has s v = true.
Proof.
  intros Hin. unfold JSSet.has. apply existsb_exists.
  exists v. split; [now apply list_elem_of_In | apply json_eqb_refl].
Qed.

Lemma not_elem_of_has (s : JSSet.t) (v : json) :
  JSSet.has s v = false -> v ∉ s.
Proof.
  intros Hf Hin. apply has_of_elem in Hin. congruence.
Qed.

Lemma add_fresh (s : JSSet.t) (v : json) :
  JSSet.has s v = false -> JSSet.add s v = s ++ [v].
Proof. intros H. unfold JSSet.add. now rewrite H. Qed.

Lemma size_add_fresh (s : JSSet.t) (v : json) :
  JSSet.has s v = false -> JSSet.size (JSSet.add s v) = S (JSSet.size s).
Proof.
  intros H. rewrite add_fresh by exact H.
  unfold JSSet.size. rewrite length_app. simpl. lia.
Qed.

Lemma elem_of_add (s : JSSet.t) (v x : json) :
  x ∈ s -> x ∈ JSSet.add s v.
Proof.
  intros H. unfold JSSet.add. destruct (JSSet.has s v); [exact H|].
  apply elem_of_app. now left.
Qed.

Lemma elem_of_add_same (s : JSSet.t) (v : json) :
  JSSet.has s v = false -> v ∈ JSSet.add s v.
Proof.
  intros H. rewrite add_fresh by exact H.
  apply elem_of_app. right. apply list_elem_of_singleton. reflexivity.
Qed.

Lemma NoDup_add (s : JSSet.t) (v : json) :
  NoDup s -> NoDup (JSSet.add s v).
Proof.
  intros Hs. unfold JSSet.add. destruct (JSSet.has s v) eqn:Hv; [exact Hs|].
  apply NoDup_app. split; [exact Hs|]. split.
  - intros x Hx Hx'. apply list_elem_of_singleton in Hx'. subst x.
    now apply not_elem_of_has in Hv.
  - apply NoDup_singleton.
Qed.

(** ** The loop body and the loop *)

Lemma iteration_cases (env : Env) (baseUrl : string) (n : nat) (u : json)
    (st : state) :
  iteration_case env baseUrl n u st (iteration env baseUrl n u st).
Proof.
  unfold iteration.
  destruct (JSSet.has (visitedUrls st) u) eqn:Hseen; [now constructor|].
  destruct (visiting_sent env n) eqn:Hsent; simpl; [|now constructor].
  destruct (goto_ok env n u) eqn:Hgoto; simpl; [|now constructor].
  destruct (page_content env n u) as [doc|] eqn:Hdoc; now constructor.
Qed.

Lemma iteration_seen (env : Env) (baseUrl : string) (n : nat) (u : json)
    (st : state) :
  JSSet.has (visitedUrls st) u = true ->
  iteration env baseUrl n u st = (Normal, st, [Shift u true]).
Proof. intros H. unfold iteration. now rewrite H. Qed.

Lemma iteration_goto_fails (env : Env) (baseUrl : string) (n : nat) (u : json)
    (st : state) :
  JSSet.has (visitedUrls st) u = false ->
  visiting_sent env n = true ->
  goto_ok env n u = false ->
  iteration env baseUrl n u st
  = (Normal, st, [Shift u false; Send (Visiting u) true; Goto u false]).
Proof. intros H1 H2 H3. unfold iteration. now rewrite H1, H2, H3. Qed.

Lemma iteration_visits (env : Env) (baseUrl : string) (n : nat) (u : json)
    (st : state) (doc : Document) :
  JSSet.has (visitedUrls st) u = false ->
  visiting_sent env n = true ->
  goto_ok env n u = true ->
  page_content env n u = Some doc ->
  iteration env baseUrl n u st
  = (Normal,
     mkState (push_links env baseUrl (visitedUrls st) (urlQueue st) doc)
             (JSSet.add (visitedUrls st) u)
             (scrapedData st ++ [mkPage u (extract doc)]),
     [Shift u false; Send (Visiting u) true; Goto u true;
      Content u (Some doc)]).
Proof. intros H1 H2 H3 H4. unfold iteration. now rewrite H1, H2, H3, H4. Qed.

(** Reasoning on a finished loop follows its unfolding: it stops on an
    empty queue, at the cap, on a body that leaves the loop, or goes round
    once more. *)
Lemma loop_result_ind (env : Env) (baseUrl : string)
    (P : nat -> state -> completion * state * list action -> Prop) :
  (forall n st, urlQueue st = [] -> P n st (Normal, st, [])) ->
  (forall n st, ~ JSSet.size (visitedUrls st) < MAX_PAGES ->
                P n st (Normal, st, [])) ->
  (forall n u rest visited scraped c st' acts,
      JSSet.size visited < MAX_PAGES ->
      iteration env baseUrl n u (mkState rest visited scraped) = (c, st', acts) ->
      c <> Normal ->
      P n (mkState (u :: rest) visited scraped) (c, st', acts)) ->
  (forall n u rest visited scraped st' acts c st'' acts',
      JSSet.size visited < MAX_PAGES ->
      iteration env baseUrl n u (mkState rest visited scraped)
        = (Normal, st', acts) ->
      P (S n) st' (c, st'', acts') ->
      P n (mkState (u :: rest) visited scraped) (c, st'', acts ++ acts')) ->
  forall fuel n st res, loop env baseUrl fuel n st = Some res -> P n st res.
Proof.
  intros Hempty Hcap Hstop Hnext fuel.
  induction fuel as [|fuel IH]; intros n [queue visited scraped] res Hloop.
  - simpl in Hloop. destruct queue as [|u rest].
    + inversion Hloop; subst. now apply Hempty.
    + destruct (Nat.ltb_spec (JSSet.size visited) MAX_PAGES) as [Hlt|Hge];
        [discriminate|].
      inversion Hloop; subst. apply Hcap. simpl. lia.
  - simpl in Hloop. destruct queue as [|u rest].
    + inversion Hloop; subst. now apply Hempty.
    + destruct (Nat.ltb_spec (JSSet.size visited) MAX_PAGES) as [Hlt|Hge].
      * destruct (iteration env baseUrl n u (mkState rest visited scraped))
          as [[c st'] acts] eqn:Hit.
        destruct c.
        -- destruct (loop env baseUrl fuel (S n) st') as [[[c' st''] acts']|]
             eqn:Hrest; [|discriminate].
           inversion Hloop; subst.
           eapply Hnext; eauto.
        -- inversion Hloop; subst. eapply Hstop; eauto; discriminate.
        -- inversion Hloop; subst. eapply Hstop; eauto; discriminate.
      * inversion Hloop; subst. apply Hcap. simpl. lia.
Qed.

(** ** The extractor *)

Lemma has_content_true (s : Section_) :
  has_content s = true -> content s <> [].
Proof.
  unfold has_content. destruct (content s); simpl; [discriminate | discriminate].
Qed.

Lemma has_content_app (t : string) (items : list Item) (i : Item) :
  has_content (mkSection t (items ++ [i])) = true.
Proof.
  unfold has_content; simpl. rewrite length_app; simpl.
  apply Nat.ltb_lt; lia.
Qed.

(** Elements whose trimmed text is empty leave the extractor as it is, so
    the walk may be read over the effective elements only. *)
Lemma walk_effective (doc : Document) (st : extractor) :
  fold_left extract_element (List.filter matches_content doc) st
  = fold_left extract_element (effective doc) st.
Proof.
  revert st. induction doc as [|e doc IH]; intros st; [reflexivity|].
  unfold effective in *; simpl.
  destruct (matches_content e); simpl; [|apply IH].
  destruct (nonempty (trim (elemText e))) eqn:Ht; simpl.
  - apply IH.
  - unfold extract_element at 2. rewrite Ht. apply IH.
Qed.

Lemma effective_nonempty (doc : Document) :
  Forall (fun e => nonempty (trim (elemText e)) = true) (effective doc).
Proof.
  unfold effective. apply Forall_forall. intros e He.
  apply list_elem_of_In, filter_In in He. destruct He as [_ He].
  apply andb_true_iff in He. tauto.
Qed.

(** Every flushed section has content, whatever the walk has done so far. *)
Lemma walk_flushed_nonempty (l : list element) (st : extractor) :
  Forall (fun s => content s <> []) (pageData st) ->
  Forall (fun s => content s <> [])
         (pageData (fold_left extract_element l st)).
Proof.
  revert st. induction l as [|e l IH]; intros st Hst; [exact Hst|].
  simpl. apply IH. unfold extract_element.
  destruct (nonempty _); [|exact Hst].
  destruct (startsWith _ _); simpl; [|exact Hst].
  destruct (has_content (currentSection st)) eqn:Hc; [|exact Hst].
  apply Forall_app. split; [exact Hst|].
  constructor; [|constructor]. now apply has_content_true.
Qed.

Lemma last_cons_default {A} (x d : A) (l : list A) :
  List.last (x :: l) d = List.last l x.
Proof.
  revert x d. induction l as [|y l IH]; intros x d; [reflexivity|].
  change (List.last (x :: y :: l) d) with (List.last (y :: l) d).
  rewrite (IH y d), (IH y x). reflexivity.
Qed.

(** A walk over headings only flushes nothing and keeps the title of the
    last one. *)
Lemma walk_headings (l : list element) (t : string) :
  Forall (fun e => nonempty (trim (elemText e)) = true) l ->
  Forall (fun e => is_heading e = true) l ->
  fold_left extract_element l (mkExtractor [] (mkSection t []))
  = mkExtractor [] (mkSection (List.last (map (fun e => trim (elemText e)) l) t) []).
Proof.
  revert t. induction l as [|e l IH]; intros t Hne Hh; [reflexivity|].
  inversion Hne as [|? ? Hne1 Hne2]; subst.
  inversion Hh as [|? ? Hh1 Hh2]; subst.
  cbn [fold_left]. unfold extract_element at 2. rewrite Hne1.
  unfold is_heading in Hh1. rewrite Hh1. cbn -[trim].
  rewrite IH by assumption.
  destruct (map _ l) as [|x m]; [reflexivity|].
  now rewrite !last_cons_default.
Qed.

Lemma walk_leads_with (t : string) (l : list element) (st : extractor) :
  leads_with t st -> leads_with t (fold_left extract_element l st).
Proof.
  revert st. induction l as [|e l IH]; intros st Hst; [exact Hst|].
  simpl. apply IH. unfold extract_element.
  destruct (nonempty _); [|exact Hst].
  unfold leads_with in *.
  destruct (startsWith _ _); simpl.
  - destruct (pageData st) as [|s ps] eqn:Hp.
    + destruct Hst as [Ht Hc]. rewrite Hc. simpl. exact Ht.
    + destruct (has_content _); simpl; exact Hst.
  - destruct (pageData st) as [|s ps] eqn:Hp; [|exact Hst].
    destruct Hst as [Ht _]. split; [exact Ht|]. apply has_content_app.
Qed.

Lemma finish_leads_with (t : string) (st : extractor) :
  leads_with t st ->
  exists s rest, extract_finish st = s :: rest /\ title s = t.
Proof.
  unfold leads_with, extract_finish. destruct (pageData st) as [|s ps].
  - intros [Ht Hc]. rewrite Hc. simpl. eauto.
  - intros Ht. destruct (has_content _); simpl; eauto.
Qed.

(** C4, as the claim states it, fails: the boundary document yields one
    section, not two. *)
Lemma C4_two_sections_refuted :
  List.length (extract Sample.boundary_doc) <> 2.
Proof. vm_compute. discriminate. Qed.

(** C4 (amended).  The document [<h1>A</h1><p>x</p><h2>B</h2>] yields
    exactly one section, titled [A] with the single item [(p, x)]; [B],
    which no content follows, is not emitted. *)
Theorem C4_section_boundary :
  extract Sample.boundary_doc = [mkSection "A" [mkItem "p" "x"]]
  /\ Forall (fun s => title s <> "B") (extract Sample.boundary_doc).
Proof.
  split; [reflexivity|].
  repeat constructor; simpl; discriminate.
Qed.

(** C5.  The extractor never emits a section with an empty content list;
    a document whose effective elements are all headings yields no section,
    the walk ending with only the last heading's title in progress; and a
    document whose first effective element is not a heading yields a first
    section titled by the empty string. *)
Theorem C5_no_empty_section (doc : Document) :
  Forall (fun s => content s <> []) (extract doc)
  /\ (Forall (fun e => is_heading e = true) (effective doc) ->
      extract doc = []
      /\ fold_left extract_element (List.filter matches_content doc) extractor_init
         = mkExtractor []
             (mkSection (List.last (map (fun e => trim (elemText e)) (effective doc)) "") []))
  /\ (forall e rest, effective doc = e :: rest -> is_heading e = false ->
      exists s more, extract doc = s :: more /\ title s = "").
Proof.
  split; [|split].
  - unfold extract, extract_finish.
    pose proof (walk_flushed_nonempty (List.filter matches_content doc)
                  extractor_init (List.Forall_nil _)) as H.
    destruct (has_content _) eqn:Hc; [|exact H].
    apply Forall_app. split; [exact H|].
    constructor; [|constructor]. now apply has_content_true.
  - intros Hh.
    assert (Hw := walk_headings (effective doc) "" (effective_nonempty doc) Hh).
    unfold extract. rewrite walk_effective.
    unfold extractor_init. rewrite Hw. split; reflexivity.
  - intros e rest He Hne.
    unfold extract. rewrite walk_effective, He. cbn [fold_left].
    apply finish_leads_with, walk_leads_with.
    pose proof (effective_nonempty doc) as Hall. rewrite He in Hall.
    inversion Hall as [|? ? Hne1 _]; subst.
    unfold extract_element, extractor_init. rewrite Hne1.
    unfold is_heading in Hne. rewrite Hne. cbn -[trim].
    split; [reflexivity|]. reflexivity.
Qed.

Lemma C5_no_empty_section_witness :
  Forall (fun e => is_heading e = true) (effective Sample.headings_doc)
  /\ extract Sample.headings_doc = []
  /\ (exists s more, extract Sample.leading_doc = s :: more /\ title s = "").
Proof.
  assert (Hh : Forall (fun e => is_heading e = true)
                      (effective Sample.headings_doc)).
  { vm_compute. repeat constructor. }
  split; [exact Hh|]. split.
  - exact (proj1 (proj1 (proj2 (C5_no_empty_section Sample.headings_doc)) Hh)).
  - apply (proj2 (proj2 (C5_no_empty_section Sample.leading_doc))
             (Element "p" " intro " None)
             [Element "h1" "One" None; Element "h2" "Two" None;
              Element "li" "item" None]); reflexivity.
Defined.

Lemma session_shapes (env : Env) (fuel : nat) (url : json) (r : run) :
  session env fuel url = Some r -> session_shape env url r.
Proof.
  unfold session. intros H.
  destruct (launch_ok env) eqn:Hl; simpl in H;
    [|inversion H; subst; now constructor].
  destruct (newPage_ok env) eqn:Hp; simpl in H;
    [|inversion H; subst; now constructor].
  destruct (URL_origin env url) as [baseUrl|] eqn:Ho;
    [|inversion H; subst; now constructor].
  destruct (loop env baseUrl fuel 0 (initial url)) as [[[c st] acts]|] eqn:Hloop;
    [|discriminate].
  destruct c.
  - destruct (close_ok env) eqn:Hc; inversion H; subst.
    + eapply shape_done; eauto; discriminate.
    + eapply shape_close_fails; eauto; discriminate.
  - destruct (close_ok env) eqn:Hc; inversion H; subst.
    + eapply shape_done; eauto; discriminate.
    + eapply shape_close_fails; eauto; discriminate.
  - inversion H; subst. eapply shape_thrown; eauto.
Qed.

(** *** The visited set stays within the cap *)

Lemma iteration_visited (env : Env) (baseUrl : string) (n : nat) (u : json)
    (st : state) (c : completion) (st' : state) (acts : list action) :
  iteration env baseUrl n u st = (c, st', acts) ->
  JSSet.size (visitedUrls st') <= S (JSSet.size (visitedUrls st))
  /\ (NoDup (visitedUrls st) -> NoDup (visitedUrls st'))
  /\ (forall v, v ∈ visitedUrls st -> v ∈ visitedUrls st').
Proof.
  intros Hit. pose proof (iteration_cases env baseUrl n u st) as Hc.
  rewrite Hit in Hc.
  inversion Hc; subst; simpl; try (split; [lia|split; auto]).
  split; [|split].
  - rewrite size_add_fresh by assumption. lia.
  - apply NoDup_add.
  - intros v. apply elem_of_add.
Qed.

Lemma reachable_bound (env : Env) (baseUrl : string) (url : json) (n : nat)
    (st : state) :
  reachable env baseUrl url n st ->
  JSSet.size (visitedUrls st) <= MAX_PAGES /\ NoDup (visitedUrls st).
Proof.
  induction 1 as [|n u rest visited scraped c st' acts Hr [IHb IHn] Hlt Hit].
  - simpl. split; [unfold MAX_PAGES; lia | apply NoDup_nil_2].
  - apply iteration_visited in Hit. simpl in *.
    destruct Hit as (Hsz & Hnd & _). split; [lia|auto].
Qed.

Lemma loop_reachable (env : Env) (baseUrl : string) (url : json)
    (fuel n : nat) (st : state) (res : completion * state * list action) :
  loop env baseUrl fuel n st = Some res ->
  reachable env baseUrl url n st ->
  exists m, reachable env baseUrl url m (snd (fst res)).
Proof.
  revert fuel n st res.
  apply (loop_result_ind env baseUrl
           (fun n st res => reachable env baseUrl url n st ->
                            exists m, reachable env baseUrl url m (snd (fst res))));
    simpl; eauto.
  - intros n u rest visited scraped c st' acts Hlt Hit _ Hr.
    exists (S n). eapply reach_iteration; eauto.
  - intros n u rest visited scraped st' acts c st'' acts' Hlt Hit IH Hr.
    apply IH. eapply reach_iteration; eauto.
Qed.

(** C1.  In every state the session reaches, the visited set holds at most
    [MAX_PAGES] URLs, all distinct; one run of the loop body adds at most
    one; and so does the state the session ends in. *)
Theorem C1_visited_within_cap (env : Env) (url : json) :
  (forall baseUrl n st,
      reachable env baseUrl url n st ->
      JSSet.size (visitedUrls st) <= MAX_PAGES /\ NoDup (visitedUrls st))
  /\ (forall baseUrl n u st c st' acts,
      iteration env baseUrl n u st = (c, st', acts) ->
      JSSet.size (visitedUrls st') <= S (JSSet.size (visitedUrls st)))
  /\ (forall fuel r st,
      session env fuel url = Some r -> final r = Some st ->
      JSSet.size (visitedUrls st) <= MAX_PAGES /\ NoDup (visitedUrls st)).
Proof.
  split; [|split].
  - intros baseUrl n st. apply reachable_bound.
  - intros baseUrl n u st c st' acts Hit.
    now apply iteration_visited in Hit.
  - intros fuel r st Hs Hf. apply session_shapes in Hs.
    inversion Hs; subst; simpl in Hf; try discriminate;
      inversion Hf; subst;
      match goal with
      | H : loop _ ?b _ _ _ = Some _ |- _ =>
          destruct (loop_reachable env b url _ _ _ _ H (reach_initial _ _ _))
            as [m Hm]
      end;
      simpl in Hm; eapply reachable_bound; eauto.
Qed.

Lemma C1_visited_within_cap_witness :
  reachable (Sample.site Sample.two_links) Sample.origin (JStr Sample.home) 1
    (mkState [JStr Sample.page2; JStr Sample.page3] [JStr Sample.home]
       [mkPage (JStr Sample.home) (extract Sample.two_links)])
  /\ JSSet.size [JStr Sample.home] <= MAX_PAGES
  /\ exists r st,
       session (Sample.site Sample.two_links) 10 (JStr Sample.home) = Some r
       /\ final r = Some st
       /\ JSSet.size (visitedUrls st) <= MAX_PAGES.
Proof.
  assert (Hr : reachable (Sample.site Sample.two_links) Sample.origin
                 (JStr Sample.home) 1
                 (mkState [JStr Sample.page2; JStr Sample.page3]
                    [JStr Sample.home]
                    [mkPage (JStr Sample.home) (extract Sample.two_links)])).
  { eapply reach_iteration.
    - apply reach_initial.
    - unfold MAX_PAGES. simpl. lia.
    - reflexivity. }
  split; [exact Hr|]. split.
  - exact (proj1 (proj1 (C1_visited_within_cap (Sample.site Sample.two_links)
                           (JStr Sample.home)) _ _ _ Hr)).
  - eexists. eexists. split; [reflexivity|]. split; [reflexivity|].
    exact (proj1 (proj2 (proj2 (C1_visited_within_cap
                                  (Sample.site Sample.two_links)
                                  (JStr Sample.home)))
                    10 _ _ eq_refl eq_refl)).
Defined.

(** *** The loop ends *)

Lemma loop_next (env : Env) (baseUrl : string) (fuel n : nat) (u : json)
    (rest : list json) (visited : JSSet.t) (scraped : list PageRecord)
    (st' : state) (acts : list action) :
  JSSet.size visited < MAX_PAGES ->
  iteration env baseUrl n u (mkState rest visited scraped) = (Normal, st', acts) ->
  loop env baseUrl (S fuel) n (mkState (u :: rest) visited scraped)
  = match loop env baseUrl fuel (S n) st' with
    | Some (c, st'', acts') => Some (c, st'', acts ++ acts')
    | None => None
    end.
Proof.
  intros Hlt Hit. cbn [loop urlQueue visitedUrls scrapedData].
  apply Nat.ltb_lt in Hlt. rewrite Hlt, Hit. reflexivity.
Qed.

Lemma loop_stop (env : Env) (baseUrl : string) (fuel n : nat) (u : json)
    (rest : list json) (visited : JSSet.t) (scraped : list PageRecord)
    (c : completion) (st' : state) (acts : list action) :
  JSSet.size visited < MAX_PAGES ->
  iteration env baseUrl n u (mkState rest visited scraped) = (c, st', acts) ->
  c <> Normal ->
  loop env baseUrl (S fuel) n (mkState (u :: rest) visited scraped)
  = Some (c, st', acts).
Proof.
  intros Hlt Hit Hc. cbn [loop urlQueue visitedUrls scrapedData].
  apply Nat.ltb_lt in Hlt. rewrite Hlt, Hit. now destruct c.
Qed.

Lemma loop_at_cap (env : Env) (baseUrl : string) (fuel n : nat) (st : state) :
  ~ JSSet.size (visitedUrls st) < MAX_PAGES ->
  loop env baseUrl fuel n st = Some (Normal, st, []).
Proof.
  intros Hge. apply Nat.ltb_nlt in Hge.
  destruct fuel; simpl; destruct (urlQueue st); rewrite ?Hge; reflexivity.
Qed.

Lemma loop_empty (env : Env) (baseUrl : string) (fuel n : nat)
    (visited : JSSet.t) (scraped : list PageRecord) :
  loop env baseUrl fuel n (mkState [] visited scraped)
  = Some (Normal, mkState [] visited scraped, []).
Proof. destruct fuel; reflexivity. Qed.

(** The loop ends: each run of the body either shortens the queue or adds a
    URL to the visited set, which the cap bounds. *)
Lemma loop_terminates (env : Env) (baseUrl : string) (k : nat) :
  forall q n st,
    MAX_PAGES - JSSet.size (visitedUrls st) <= k ->
    List.length (urlQueue st) <= q ->
    exists fuel res, loop env baseUrl fuel n st = Some res.
Proof.
  induction k as [|k IHk]; intros q; induction q as [|q IHq];
    intros n [queue visited scraped] Hk Hq; simpl in Hk, Hq.
  - exists 0. rewrite loop_at_cap by (simpl; lia). eauto.
  - exists 0. rewrite loop_at_cap by (simpl; lia). eauto.
  - destruct queue; [|simpl in Hq; lia]. exists 0. rewrite loop_empty. eauto.
  - destruct queue as [|u rest]; [exists 0; rewrite loop_empty; eauto|].
    destruct (Nat.lt_ge_cases (JSSet.size visited) MAX_PAGES) as [Hlt|Hge];
      [|exists 0; rewrite loop_at_cap by (simpl; lia); eauto].
    pose proof (iteration_cases env baseUrl n u (mkState rest visited scraped))
      as Hc.
    simpl in Hq.
    inversion Hc as [Hs Heq|Hs Hv Heq|Hs Hv Hg Heq|Hs Hv Hg Hp Heq
                    |doc Hs Hv Hg Hp Heq]; symmetry in Heq.
    + destruct (IHq (S n) (mkState rest visited scraped)) as (f & res & Hres);
        [simpl; lia | simpl; lia|].
      exists (S f). rewrite (loop_next _ _ _ _ _ _ _ _ _ _ Hlt Heq), Hres.
      destruct res as [[c st''] acts']. eauto.
    + exists 1. rewrite (loop_stop _ _ _ _ _ _ _ _ _ _ _ Hlt Heq);
        [eauto | discriminate].
    + destruct (IHq (S n) (mkState rest visited scraped)) as (f & res & Hres);
        [simpl; lia | simpl; lia|].
      exists (S f). rewrite (loop_next _ _ _ _ _ _ _ _ _ _ Hlt Heq), Hres.
      destruct res as [[c st''] acts']. eauto.
    + exists 1. rewrite (loop_stop _ _ _ _ _ _ _ _ _ _ _ Hlt Heq);
        [eauto | discriminate].
    + simpl in Hs.
      match type of Heq with _ = (_, ?st1, _) =>
        destruct (IHk (List.length (urlQueue st1)) (S n) st1)
          as (f & res & Hres)
      end.
      * simpl. rewrite size_add_fresh by exact Hs. lia.
      * lia.
      * exists (S f). rewrite (loop_next _ _ _ _ _ _ _ _ _ _ Hlt Heq), Hres.
        destruct res as [[c st''] acts']. eauto.
Qed.

Lemma session_terminates (env : Env) (url : json) :
  exists fuel r, session env fuel url = Some r.
Proof.
  unfold session.
  destruct (launch_ok env); simpl; [|exists 0; eauto].
  destruct (newPage_ok env); simpl; [|exists 0; eauto].
  destruct (URL_origin env url) as [baseUrl|]; [|exists 0; eauto].
  destruct (loop_terminates env baseUrl MAX_PAGES 1 0 (initial url))
    as (fuel & [[c st] acts] & Hloop); [lia | simpl; lia|].
  exists fuel. rewrite Hloop.
  destruct c; destruct (close_ok env); eauto.
Qed.

(** More fuel does not change the result of a loop that ended. *)
Lemma loop_fuel_mono (env : Env) (baseUrl : string) (fuel : nat) :
  forall n st res extra,
    loop env baseUrl fuel n st = Some res ->
    loop env baseUrl (fuel + extra) n st = Some res.
Proof.
  induction fuel as [|fuel IH]; intros n st res extra H.
  - simpl in H. destruct (urlQueue st) eqn:Hq.
    + destruct extra; simpl; rewrite Hq; exact H.
    + destruct (Nat.ltb _ _) eqn:Hlt; [discriminate|].
      destruct extra; simpl; rewrite Hq, Hlt; exact H.
  - simpl in *. destruct (urlQueue st); [exact H|].
    destruct (Nat.ltb _ _); [|exact H].
    destruct (iteration _ _ _ _ _) as [[c st'] acts].
    destruct c; try exact H.
    destruct (loop env baseUrl fuel (S n) st') as [res'|] eqn:Hrest;
      [|discriminate].
    now rewrite (IH _ _ _ extra Hrest).
Qed.

(** The result of a session does not depend on the fuel it was given. *)
Lemma session_deterministic (env : Env) (url : json) (fuel1 fuel2 : nat)
    (r1 r2 : run) :
  session env fuel1 url = Some r1 ->
  session env fuel2 url = Some r2 ->
  r1 = r2.
Proof.
  unfold session.
  destruct (launch_ok env); simpl; [|congruence].
  destruct (newPage_ok env); simpl; [|congruence].
  destruct (URL_origin env url) as [baseUrl|]; [|congruence].
  destruct (loop env baseUrl fuel1 0 (initial url)) as [res1|] eqn:H1;
    [|discriminate].
  destruct (loop env baseUrl fuel2 0 (initial url)) as [res2|] eqn:H2;
    [|discriminate].
  apply (loop_fuel_mono env baseUrl fuel1 _ _ _ fuel2) in H1.
  apply (loop_fuel_mono env baseUrl fuel2 _ _ _ fuel1) in H2.
  rewrite (Nat.add_comm fuel2 fuel1) in H2.
  assert (res1 = res2) as -> by congruence.
  congruence.
Qed.

(** *** The result list *)

Lemma iteration_scraped (env : Env) (baseUrl : string) (n : nat) (u : json)
    (st : state) (c : completion) (st' : state) (acts : list action) :
  iteration env baseUrl n u st = (c, st', acts) ->
  scrapedData st' = scrapedData st ++ records acts.
Proof.
  intros Hit. pose proof (iteration_cases env baseUrl n u st) as Hc.
  rewrite Hit in Hc.
  inversion Hc; subst; simpl; now rewrite ?app_nil_r.
Qed.

(** The result list grows by the record of each page whose content was
    read, in that order. *)
Lemma loop_scraped (env : Env) (baseUrl : string) (fuel n : nat)
    (st : state) (res : completion * state * list action) :
  loop env baseUrl fuel n st = Some res ->
  scrapedData (snd (fst res)) = scrapedData st ++ records (snd res).
Proof.
  revert fuel n st res.
  apply (loop_result_ind env baseUrl
           (fun n st res =>
              scrapedData (snd (fst res)) = scrapedData st ++ records (snd res)));
    simpl; intros.
  - now rewrite app_nil_r.
  - now rewrite app_nil_r.
  - match goal with H : iteration _ _ _ _ _ = _ |- _ =>
      apply iteration_scraped in H; exact H end.
  - match goal with H : iteration _ _ _ _ _ = _ |- _ =>
      apply iteration_scraped in H; simpl in H end.
    unfold records in *. rewrite omap_app, app_assoc. congruence.
Qed.

Lemma iteration_loop_actions (env : Env) (baseUrl : string) (n : nat)
    (u : json) (st : state) (c : completion) (st' : state)
    (acts : list action) :
  iteration env baseUrl n u st = (c, st', acts) ->
  Forall (fun a => loop_action a = true) acts.
Proof.
  intros Hit. pose proof (iteration_cases env baseUrl n u st) as Hc.
  rewrite Hit in Hc. inversion Hc; subst; repeat constructor.
Qed.

(** The loop only shifts, announces, navigates and reads content. *)
Lemma loop_actions (env : Env) (baseUrl : string) (fuel n : nat)
    (st : state) (res : completion * state * list action) :
  loop env baseUrl fuel n st = Some res ->
  Forall (fun a => loop_action a = true) (snd res).
Proof.
  revert fuel n st res.
  apply (loop_result_ind env baseUrl
           (fun n st res => Forall (fun a => loop_action a = true) (snd res)));
    simpl; intros; try constructor.
  - eapply iteration_loop_actions; eauto.
  - apply Forall_app. split; [eapply iteration_loop_actions; eauto | assumption].
Qed.

(** Where a loop action of a session's trace comes from. *)
Lemma session_loop_action (env : Env) (url : json) (r : run) (a : action) :
  session_shape env url r ->
  a ∈ trace r -> loop_action a = true ->
  exists baseUrl fuel c st acts,
    loop env baseUrl fuel 0 (initial url) = Some (c, st, acts)
    /\ final r = Some st /\ a ∈ acts.
Proof.
  intros Hshape Hin Ha.
  inversion Hshape; subst; unfold catch_block in Hin; simpl in Hin;
    repeat (rewrite elem_of_cons in Hin || rewrite elem_of_app in Hin
            || rewrite elem_of_nil in Hin);
    repeat match goal with
           | H : _ \/ _ |- _ => destruct H
           | H : False |- _ => destruct H
           | H : a = _ |- _ => subst a; simpl in Ha; discriminate
           end;
    eauto 10.
Qed.

Lemma extract_nothing (doc : Document) :
  effective doc = [] -> extract doc = [].
Proof.
  intros H. unfold extract. rewrite walk_effective, H. reflexivity.
Qed.

(** C10.  When navigation to [u] succeeded and the page holds no element of
    the tag set with non-empty trimmed text, the loop body appends the record
    [{url: u, data: []}] to the result list; the record is in the result
    list the session ends with, and in the [scrapedData] message when one is
    sent. *)
Theorem C10_empty_page_recorded (env : Env) (url : json) :
  (forall baseUrl n u st doc,
      JSSet.has (visitedUrls st) u = false ->
      visiting_sent env n = true ->
      goto_ok env n u = true ->
      page_content env n u = Some doc ->
      effective doc = [] ->
      exists st' acts,
        iteration env baseUrl n u st = (Normal, st', acts)
        /\ scrapedData st' = scrapedData st ++ [mkPage u []])
  /\ (forall fuel r u doc,
      session env fuel url = Some r ->
      Content u (Some doc) ∈ trace r ->
      effective doc = [] ->
      exists st,
        final r = Some st
        /\ mkPage u [] ∈ scrapedData st
        /\ (forall d ok, Send (ScrapedData d) ok ∈ trace r -> mkPage u [] ∈ d)).
Proof.
  split.
  { intros baseUrl n u st doc Hfresh Hsent Hgoto Hdoc Hnone.
    rewrite (iteration_visits env baseUrl n u st doc Hfresh Hsent Hgoto Hdoc).
    rewrite (extract_nothing doc Hnone). eauto. }
  intros fuel r u doc Hs Hin Hdoc. apply session_shapes in Hs.
  destruct (session_loop_action env url r _ Hs Hin eq_refl)
    as (baseUrl & fuel' & c & st & acts & Hloop & Hfinal & Hacts).
  assert (Hrec : mkPage u [] ∈ scrapedData st).
  { apply loop_scraped in Hloop. simpl in Hloop. rewrite Hloop.
    unfold records. apply list_elem_of_omap.
    exists (Content u (Some doc)). split; [exact Hacts|].
    now rewrite (extract_nothing doc Hdoc). }
  exists st. split; [exact Hfinal|]. split; [exact Hrec|].
  intros d ok Hsend.
  inversion Hs; subst; unfold catch_block in Hsend; simpl in Hsend, Hfinal;
    repeat (rewrite elem_of_cons in Hsend || rewrite elem_of_app in Hsend
            || rewrite elem_of_nil in Hsend);
    try discriminate.
  all: match goal with
       | H : loop _ _ _ _ _ = Some (_, _, ?l) |- _ =>
           pose proof (loop_actions _ _ _ _ _ _ H) as Hla; simpl in Hla;
           rewrite Forall_forall in Hla
       end.
  all: repeat match goal with
              | H : _ \/ _ |- _ => destruct H
              | H : False |- _ => destruct H
              | H : Send _ _ = _ |- _ => inversion H; clear H; subst
              | H : Send (ScrapedData _) _ ∈ _ |- _ =>
                  apply Hla in H; simpl in H; discriminate
              end.
  all: try congruence.
Qed.

Lemma C10_empty_page_recorded_witness :
  exists r st,
    session (Sample.site Sample.bare_link) 5 (JStr Sample.home) = Some r
    /\ Content (JStr Sample.page4) (Some Sample.bare_doc) ∈ trace r
    /\ final r = Some st
    /\ mkPage (JStr Sample.page4) [] ∈ scrapedData st.
Proof.
  pose (r := default (mkRun [] None Returned)
               (session (Sample.site Sample.bare_link) 5 (JStr Sample.home))).
  assert (Hin : Content (JStr Sample.page4) (Some Sample.bare_doc) ∈ trace r).
  { apply list_elem_of_In. vm_compute. do 9 right. left. reflexivity. }
  destruct (proj2 (C10_empty_page_recorded (Sample.site Sample.bare_link)
                     (JStr Sample.home))
              5 r (JStr Sample.page4) Sample.bare_doc eq_refl Hin eq_refl)
    as (st & Hfinal & Hrec & _).
  exists r, st. repeat split; [exact Hin | exact Hfinal | exact Hrec].
Defined.

(** *** Navigation failures *)

(** A queue holding only visited URLs and one URL that cannot be reached
    drains without changing the visited set or the results. *)
Lemma loop_drains (env : Env) (baseUrl : string) (dead : json)
    (visited : JSSet.t) (scraped : list PageRecord) :
  (forall n, visiting_sent env n = true) ->
  (forall n, goto_ok env n dead = false) ->
  JSSet.has visited dead = false ->
  JSSet.size visited < MAX_PAGES ->
  forall queue n,
    Forall (fun v => v ∈ visited \/ v = dead) queue ->
    exists acts,
      loop env baseUrl (List.length queue) n (mkState queue visited scraped)
      = Some (Normal, mkState [] visited scraped, acts).
Proof.
  intros Hsent Hdead Hfresh Hlt queue.
  induction queue as [|v queue IH]; intros n Hq.
  - exists []. reflexivity.
  - inversion Hq as [|? ? Hv Hrest]; subst.
    destruct (IH (S n) Hrest) as [acts' Hloop].
    destruct (JSSet.has visited v) eqn:Hseen.
    + eexists. cbn [List.length].
      rewrite (loop_next env baseUrl _ n v queue visited scraped _ _ Hlt
                 (iteration_seen env baseUrl n v
                    (mkState queue visited scraped) Hseen)).
      rewrite Hloop. reflexivity.
    + destruct Hv as [Hv| ->]; [apply has_of_elem in Hv; congruence|].
      eexists. cbn [List.length].
      rewrite (loop_next env baseUrl _ n dead queue visited scraped _ _ Hlt
                 (iteration_goto_fails env baseUrl n dead
                    (mkState queue visited scraped) Hseen
                    (Hsent n) (Hdead n))).
      rewrite Hloop. reflexivity.
Qed.

Lemma has_single_other (s t : string) :
  s <> t -> JSSet.has [JStr s] (JStr t) = false.
Proof.
  intros Hne. unfold JSSet.has. simpl.
  destruct (String.eqb_spec t s) as [->|_]; [congruence|reflexivity].
Qed.

Lemma small_below_cap (n : nat) : n <= 2 -> n < MAX_PAGES.
Proof. unfold MAX_PAGES. lia. Qed.

(** The failure scenario: the home page links to [U2], which cannot be
    reached, and to [U3], whose own links lead nowhere new. *)
Lemma failure_scenario (env : Env) (seed U2 U3 baseUrl : string)
    (home_doc doc3 : Document) :
  launch_ok env = true -> newPage_ok env = true -> close_ok env = true ->
  (forall n, visiting_sent env n = true) ->
  URL_origin env (JStr seed) = Some baseUrl ->
  seed <> U2 -> seed <> U3 -> U2 <> U3 ->
  (forall n, goto_ok env n (JStr seed) = true
             /\ page_content env n (JStr seed) = Some home_doc) ->
  (forall n, goto_ok env n (JStr U2) = false) ->
  (forall n, goto_ok env n (JStr U3) = true
             /\ page_content env n (JStr U3) = Some doc3) ->
  push_links env baseUrl [] [] home_doc = [JStr U2; JStr U3] ->
  Forall (fun v => v ∈ [JStr seed; JStr U2; JStr U3])
         (push_links env baseUrl [JStr seed] [] doc3) ->
  exists fuel r st,
    session env fuel (JStr seed) = Some r
    /\ final r = Some st
    /\ scrapedData st
       = [mkPage (JStr seed) (extract home_doc); mkPage (JStr U3) (extract doc3)]
    /\ visitedUrls st = [JStr seed; JStr U3]
    /\ JSSet.has (visitedUrls st) (JStr U2) = false
    /\ Send (ScrapedData (scrapedData st)) (reply_sent env) ∈ trace r.
Proof.
  intros Hlaunch Hpage Hclose Hsent Horigin H12 H13 H23 Hseed Hdead Hthird
         Hlinks Hlinks3.
  set (queue3 := push_links env baseUrl [JStr seed] [] doc3) in *.
  set (visited := [JStr seed; JStr U3]).
  set (scraped := [mkPage (JStr seed) (extract home_doc);
                   mkPage (JStr U3) (extract doc3)]).
  assert (Hfresh : JSSet.has visited (JStr U2) = false).
  { unfold JSSet.has, visited. simpl.
    destruct (String.eqb_spec U2 seed) as [->|_]; [congruence|].
    destruct (String.eqb_spec U2 U3) as [->|_]; [congruence|reflexivity]. }
  destruct (loop_drains env baseUrl (JStr U2) visited scraped Hsent Hdead
              Hfresh (small_below_cap 2 (le_n 2)) queue3 3) as [acts Hdrain].
  { eapply Forall_impl; [exact Hlinks3|]. intros v Hv. simpl in Hv.
    unfold visited.
    repeat (rewrite elem_of_cons in Hv || rewrite elem_of_nil in Hv).
    repeat rewrite elem_of_cons. intuition. }
  assert (Hloop : exists acts',
             loop env baseUrl (3 + List.length queue3) 0 (initial (JStr seed))
             = Some (Normal, mkState [] visited scraped, acts')).
  { eexists. unfold initial.
    change (3 + List.length queue3) with (S (S (S (List.length queue3)))).
    erewrite loop_next;
      [| apply (small_below_cap 0); lia
       | apply (iteration_visits env baseUrl 0 (JStr seed)
                  (mkState [] JSSet.empty []) home_doc eq_refl (Hsent 0)
                  (proj1 (Hseed 0)) (proj2 (Hseed 0)))].
    cbn [urlQueue visitedUrls scrapedData]. unfold JSSet.empty.
    rewrite Hlinks.
    change (JSSet.add [] (JStr seed)) with [JStr seed].
    erewrite loop_next;
      [| apply (small_below_cap 1); lia
       | apply (iteration_goto_fails env baseUrl 1 (JStr U2)
                  (mkState [JStr U3] [JStr seed] _)
                  (has_single_other seed U2 H12) (Hsent 1) (Hdead 1))].
    erewrite loop_next;
      [| apply (small_below_cap 1); lia
       | apply (iteration_visits env baseUrl 2 (JStr U3)
                  (mkState [] [JStr seed] _) doc3
                  (has_single_other seed U3 H13) (Hsent 2)
                  (proj1 (Hthird 2)) (proj2 (Hthird 2)))].
    cbn [urlQueue visitedUrls scrapedData].
    rewrite (add_fresh [JStr seed] (JStr U3) (has_single_other seed U3 H13)).
    fold queue3. cbn [app]. fold visited. fold scraped.
    rewrite Hdrain. reflexivity. }
  destruct Hloop as [acts' Hloop].
  exists (3 + List.length queue3). eexists. exists (mkState [] visited scraped).
  split.
  { unfold session. rewrite Hlaunch, Hpage, Horigin. cbn [negb].
    rewrite Hloop, Hclose. reflexivity. }
  cbn [final trace scrapedData visitedUrls].
  repeat split; try assumption.
  repeat (rewrite elem_of_cons || rewrite elem_of_app). auto 10.
Qed.

(** C2.  When navigation to a shifted URL [u] fails, the loop body leaves
    the visited set, the result list and the rest of the queue as they were,
    makes that one attempt only, and the loop goes on with the next entry.
    In the scenario where the home page links to [U2], which cannot be
    reached, and to [U3], which can, the session ends with the records of
    the seed and of [U3] exactly, and [U2] is not in the visited set. *)
Theorem C2_navigation_failure (env : Env) :
  (forall baseUrl fuel n u rest visited scraped,
      JSSet.size visited < MAX_PAGES ->
      JSSet.has visited u = false ->
      visiting_sent env n = true ->
      goto_ok env n u = false ->
      iteration env baseUrl n u (mkState rest visited scraped)
      = (Normal, mkState rest visited scraped,
         [Shift u false; Send (Visiting u) true; Goto u false])
      /\ loop env baseUrl (S fuel) n (mkState (u :: rest) visited scraped)
         = match loop env baseUrl fuel (S n) (mkState rest visited scraped) with
           | Some (c, st, acts) =>
               Some (c, st,
                     [Shift u false; Send (Visiting u) true; Goto u false]
                     ++ acts)
           | None => None
           end)
  /\ (forall seed U2 U3 baseUrl home_doc doc3,
      launch_ok env = true -> newPage_ok env = true -> close_ok env = true ->
      (forall n, visiting_sent env n = true) ->
      URL_origin env (JStr seed) = Some baseUrl ->
      seed <> U2 -> seed <> U3 -> U2 <> U3 ->
      (forall n, goto_ok env n (JStr seed) = true
                 /\ page_content env n (JStr seed) = Some home_doc) ->
      (forall n, goto_ok env n (JStr U2) = false) ->
      (forall n, goto_ok env n (JStr U3) = true
                 /\ page_content env n (JStr U3) = Some doc3) ->
      push_links env baseUrl [] [] home_doc = [JStr U2; JStr U3] ->
      Forall (fun v => v ∈ [JStr seed; JStr U2; JStr U3])
             (push_links env baseUrl [JStr seed] [] doc3) ->
      exists fuel r st,
        session env fuel (JStr seed) = Some r
        /\ final r = Some st
        /\ scrapedData st
           = [mkPage (JStr seed) (extract home_doc);
              mkPage (JStr U3) (extract doc3)]
        /\ visitedUrls st = [JStr seed; JStr U3]
        /\ JSSet.has (visitedUrls st) (JStr U2) = false
        /\ Send (ScrapedData (scrapedData st)) (reply_sent env) ∈ trace r).
Proof.
  split.
  - intros baseUrl fuel n u rest visited scraped Hlt Hfresh Hsent Hgoto.
    pose proof (iteration_goto_fails env baseUrl n u
                  (mkState rest visited scraped) Hfresh Hsent Hgoto) as Hit.
    split; [exact Hit|].
    exact (loop_next env baseUrl fuel n u rest visited scraped _ _ Hlt Hit).
  - intros. eapply failure_scenario; eauto.
Qed.

Lemma C2_navigation_failure_witness :
  iteration (Sample.site Sample.two_links) Sample.origin 1 (JStr Sample.page2)
    (mkState [JStr Sample.page3] [JStr Sample.home] [])
  = (Normal, mkState [JStr Sample.page3] [JStr Sample.home] [],
     [Shift (JStr Sample.page2) false; Send (Visiting (JStr Sample.page2)) true;
      Goto (JStr Sample.page2) false])
  /\ exists fuel r st,
       session (Sample.site Sample.two_links) fuel (JStr Sample.home) = Some r
       /\ final r = Some st
       /\ scrapedData st
          = [mkPage (JStr Sample.home) (extract Sample.two_links);
             mkPage (JStr Sample.page3) (extract Sample.leaf_doc)]
       /\ visitedUrls st = [JStr Sample.home; JStr Sample.page3]
       /\ JSSet.has (visitedUrls st) (JStr Sample.page2) = false
       /\ Send (ScrapedData (scrapedData st)) true ∈ trace r.
Proof.
  split.
  - apply (proj1 (C2_navigation_failure (Sample.site Sample.two_links))
             Sample.origin 0 1 (JStr Sample.page2) [JStr Sample.page3]
             [JStr Sample.home] []).
    + unfold MAX_PAGES. simpl. lia.
    + reflexivity.
    + reflexivity.
    + reflexivity.
  - apply (proj2 (C2_navigation_failure (Sample.site Sample.two_links))
             Sample.home Sample.page2 Sample.page3 Sample.origin
             Sample.two_links Sample.leaf_doc);
      try reflexivity; try discriminate;
      try (intros n; split; reflexivity).
    vm_compute. constructor.
Defined.

(** *** Repeated navigation *)

Lemma attempts_app (t1 t2 : list action) :
  attempts (t1 ++ t2) = attempts t1 ++ attempts t2.
Proof. apply omap_app. Qed.

Lemma iteration_attempts (env : Env) (baseUrl : string) (n : nat) (u : json)
    (st : state) (c : completion) (st' : state) (acts : list action) :
  iteration env baseUrl n u st = (c, st', acts) ->
  (attempts acts = []
   \/ (attempts acts = [(u, false)] /\ JSSet.has (visitedUrls st) u = false)
   \/ (attempts acts = [(u, true)] /\ JSSet.has (visitedUrls st) u = false
       /\ (c = Normal -> u ∈ visitedUrls st'))).
Proof.
  intros Hit. pose proof (iteration_cases env baseUrl n u st) as Hc.
  rewrite Hit in Hc. inversion Hc; subst; simpl; auto.
  - right. right. repeat split; auto. discriminate.
  - right. right. repeat split; auto. intros _. now apply elem_of_add_same.
Qed.

(** A URL of the visited set is not navigated to again, and neither is a
    URL whose navigation succeeded. *)
Lemma loop_no_revisit (env : Env) (baseUrl : string) (fuel n : nat)
    (st : state) (res : completion * state * list action) :
  loop env baseUrl fuel n st = Some res ->
  (forall v, v ∈ visitedUrls st -> v ∉ (attempts (snd res)).*1)
  /\ no_revisit (attempts (snd res)).
Proof.
  revert fuel n st res.
  apply (loop_result_ind env baseUrl
           (fun n st res =>
              (forall v, v ∈ visitedUrls st -> v ∉ (attempts (snd res)).*1)
              /\ no_revisit (attempts (snd res))));
    simpl.
  - intros n st _. split; [intros v _; apply not_elem_of_nil | exact I].
  - intros n st _. split; [intros v _; apply not_elem_of_nil | exact I].
  - intros n u rest visited scraped c st' acts Hlt Hit Hc.
    destruct (iteration_attempts _ _ _ _ _ _ _ _ Hit)
      as [-> | [[-> Hf] | [-> [Hf _]]]]; simpl in *.
    + split; [intros v _; apply not_elem_of_nil | exact I].
    + split; [|split; [discriminate | exact I]].
      intros v Hv Hin. apply list_elem_of_singleton in Hin. subst v.
      apply has_of_elem in Hv. congruence.
    + split; [|split; [intros _; apply not_elem_of_nil | exact I]].
      intros v Hv Hin. apply list_elem_of_singleton in Hin. subst v.
      apply has_of_elem in Hv. congruence.
  - intros n u rest visited scraped st' acts c st'' acts' Hlt Hit [IHv IHr].
    destruct (iteration_visited _ _ _ _ _ _ _ _ Hit) as (_ & _ & Hmono).
    rewrite attempts_app, fmap_app.
    destruct (iteration_attempts _ _ _ _ _ _ _ _ Hit)
      as [-> | [[-> Hf] | [-> [Hf Hin']]]]; simpl in *.
    + split; [|exact IHr]. intros v Hv. apply IHv, Hmono, Hv.
    + split; [|split; [discriminate | exact IHr]].
      intros v Hv Hin. apply elem_of_cons in Hin as [->|Hin].
      * apply has_of_elem in Hv. congruence.
      * now apply (IHv v (Hmono v Hv)).
    + split; [|split; [intros _; apply IHv; auto | exact IHr]].
      intros v Hv Hin. apply elem_of_cons in Hin as [->|Hin].
      * apply has_of_elem in Hv. congruence.
      * now apply (IHv v (Hmono v Hv)).
Qed.

Lemma no_revisit_split (l : list (json * bool)) :
  no_revisit l ->
  forall pre u post, l = pre ++ (u, true) :: post -> u ∉ post.*1.
Proof.
  induction l as [|[v ok] l IH]; intros Hl pre u post Heq.
  - now destruct pre.
  - destruct Hl as [Hhead Htail].
    destruct pre as [|p pre]; simpl in Heq; inversion Heq; subst.
    + now apply Hhead.
    + eapply IH; eauto.
Qed.

Lemma no_revisit_NoDup (l : list (json * bool)) :
  no_revisit l -> (forall u, (u, false) ∉ l) -> NoDup l.*1.
Proof.
  induction l as [|[v ok] l IH]; intros Hl Hok; [apply NoDup_nil_2|].
  destruct Hl as [Hhead Htail]. simpl. apply NoDup_cons. split.
  - destruct ok; [now apply Hhead|].
    exfalso. apply (Hok v). apply elem_of_cons. now left.
  - apply IH; [exact Htail|].
    intros u Hu. apply (Hok u). apply elem_of_cons. now right.
Qed.

(** The navigation attempts of a session are those of its loop. *)
Lemma session_attempts (env : Env) (url : json) (r : run) :
  session_shape env url r ->
  attempts (trace r) = []
  \/ exists baseUrl fuel c st acts,
       loop env baseUrl fuel 0 (initial url) = Some (c, st, acts)
       /\ attempts (trace r) = attempts acts.
Proof.
  intros Hs.
  inversion Hs; subst; unfold catch_block; cbn [trace];
    try (left; reflexivity); right;
    exists baseUrl, fuel; eexists; exists st, acts;
    (split; [eassumption|]);
    cbn [app]; unfold attempts; cbn [omap list_omap];
    rewrite omap_app; cbn; now rewrite app_nil_r.
Qed.

(** C6, as the claim states it, fails: a URL whose navigation fails is
    attempted again each time the queue holds it.  On the sample site, whose
    home page links twice to a page that cannot be reached, that page is
    navigated to twice. *)
Lemma C6_repeated_attempt :
  exists r,
    session (Sample.site Sample.repeated_links) 10 (JStr Sample.home) = Some r
    /\ navigations (trace r)
       = [JStr Sample.home; JStr Sample.page2; JStr Sample.page2;
          JStr Sample.page3]
    /\ ~ NoDup (navigations (trace r)).
Proof.
  eexists. split; [reflexivity|]. split; [reflexivity|].
  intros Hnd. vm_compute in Hnd.
  apply NoDup_cons in Hnd as [_ Hnd]. apply NoDup_cons in Hnd as [Hnotin _].
  apply Hnotin. apply elem_of_cons. now left.
Qed.

(** C6 (amended).  Within one session no URL is navigated to again after a
    navigation to it succeeded; in particular the navigation attempts of a
    session in which no navigation fails contain no duplicates. *)
Theorem C6_no_revisit_after_success (env : Env) (fuel : nat) (url : json)
    (r : run) :
  session env fuel url = Some r ->
  (forall pre u post,
      attempts (trace r) = pre ++ (u, true) :: post -> u ∉ post.*1)
  /\ ((forall u, (u, false) ∉ attempts (trace r)) ->
      NoDup (navigations (trace r))).
Proof.
  intros Hs. apply session_shapes in Hs.
  assert (Hnr : no_revisit (attempts (trace r))).
  { destruct (session_attempts env url r Hs)
      as [-> | (baseUrl & fuel' & c & st & acts & Hloop & ->)]; [exact I|].
    now apply loop_no_revisit in Hloop. }
  split.
  - now apply no_revisit_split.
  - now apply no_revisit_NoDup.
Qed.

Lemma C6_no_revisit_after_success_witness :
  exists r,
    session (Sample.site Sample.repeated_links) 10 (JStr Sample.home) = Some r
    /\ JStr Sample.home
       ∉ [JStr Sample.page2; JStr Sample.page2; JStr Sample.page3].
Proof.
  eexists. split; [reflexivity|].
  exact (proj1 (C6_no_revisit_after_success
                  (Sample.site Sample.repeated_links) 10 (JStr Sample.home)
                  _ eq_refl)
           [] (JStr Sample.home)
           [(JStr Sample.page2, false); (JStr Sample.page2, false);
            (JStr Sample.page3, true)]
           eq_refl).
Defined.

(** *** The order of events *)

Lemma announced_app (t1 t2 : list action) :
  announced t1 -> announced t2 -> announced (t1 ++ t2).
Proof.
  induction 1; intros H2; simpl; [exact H2| |];
    constructor; auto.
Qed.

Lemma announced_split (t : list action) :
  announced t ->
  forall pre u ok post,
    t = pre ++ Goto u ok :: post ->
    exists pre', pre = pre' ++ [Send (Visiting u) true].
Proof.
  induction 1 as [|v okv t Ht IH|a t Ha Ht IH]; intros pre u ok post Heq.
  - now destruct pre.
  - destruct pre as [|a1 [|a2 pre]]; simpl in Heq; inversion Heq; subst.
    + now exists [].
    + destruct (IH pre u ok post eq_refl) as [pre' ->].
      now exists (Send (Visiting v) true :: Goto v okv :: pre').
  - destruct pre as [|a1 pre]; simpl in Heq; inversion Heq; subst.
    + now destruct (Ha u ok).
    + destruct (IH pre u ok post eq_refl) as [pre' ->].
      now exists (a1 :: pre').
Qed.

Lemma iteration_events (env : Env) (baseUrl : string) (n : nat) (u : json)
    (st : state) (c : completion) (st' : state) (acts : list action) :
  iteration env baseUrl n u st = (c, st', acts) ->
  announced acts
  /\ visiting_sends acts = shifted_fresh acts
  /\ visiting_events acts = navigations acts
  /\ visiting_events acts `sublist_of` shifted acts.
Proof.
  intros Hit. pose proof (iteration_cases env baseUrl n u st) as Hc.
  rewrite Hit in Hc.
  inversion Hc; subst; (split; [|split; [|split]]); try reflexivity.
  all: try (repeat (first [ apply announced_goto
                          | apply announced_other; [intros; discriminate|]
                          | apply announced_nil ]); fail).
  all: cbn; repeat constructor.
Qed.

Lemma loop_events (env : Env) (baseUrl : string) (fuel n : nat)
    (st : state) (res : completion * state * list action) :
  loop env baseUrl fuel n st = Some res ->
  announced (snd res)
  /\ visiting_sends (snd res) = shifted_fresh (snd res)
  /\ visiting_events (snd res) = navigations (snd res)
  /\ visiting_events (snd res) `sublist_of` shifted (snd res).
Proof.
  revert fuel n st res.
  apply (loop_result_ind env baseUrl
           (fun n st res =>
              announced (snd res)
              /\ visiting_sends (snd res) = shifted_fresh (snd res)
              /\ visiting_events (snd res) = navigations (snd res)
              /\ visiting_events (snd res) `sublist_of` shifted (snd res)));
    simpl.
  - intros; repeat split; constructor.
  - intros; repeat split; constructor.
  - intros n u rest visited scraped c st' acts _ Hit _.
    eapply iteration_events; eauto.
  - intros n u rest visited scraped st' acts c st'' acts' _ Hit
           (IHa & IHs & IHe & IHsub).
    destruct (iteration_events _ _ _ _ _ _ _ _ Hit) as (Ha & Hs & He & Hsub).
    split; [now apply announced_app|].
    unfold visiting_sends, shifted_fresh, visiting_events, navigations,
      attempts, shifted in *.
    rewrite !omap_app, fmap_app.
    split; [congruence|]. split; [congruence|].
    now apply sublist_app.
Qed.

Lemma result_is_last (l : list action) (x y : action) :
  Forall (fun a => is_result a = false) l ->
  is_result y = true ->
  forall pre post, l ++ [x] = pre ++ y :: post -> post = [].
Proof.
  intros Hl Hy. induction Hl as [|a l Ha Hl IH]; intros pre post Heq.
  - destruct pre as [|p [|q pre]]; simpl in Heq; inversion Heq; reflexivity.
  - destruct pre as [|p pre]; simpl in Heq; inversion Heq; subst.
    + congruence.
    + eapply IH; eauto.
Qed.

Lemma no_result_split (l : list action) (y : action) :
  Forall (fun a => is_result a = false) l ->
  is_result y = true ->
  forall pre post, l <> pre ++ y :: post.
Proof.
  intros Hl Hy pre post ->. apply Forall_app in Hl as [_ Hl].
  inversion Hl; subst. congruence.
Qed.

Lemma loop_action_not_result (l : list action) :
  Forall (fun a => loop_action a = true) l ->
  Forall (fun a => is_result a = false) l.
Proof.
  intros H. eapply Forall_impl; [exact H|].
  intros [| | |[]| | |]; simpl; congruence.
Qed.

(** C7, as the claim states it, fails: a shift that returns a URL already
    in the visited set sends no [visiting] event.  On the sample site, whose
    home page repeats its links, five URLs are shifted and four events
    sent. *)
Lemma C7_silent_shift :
  exists r,
    session (Sample.site Sample.repeated_links) 10 (JStr Sample.home) = Some r
    /\ List.length (shifted (trace r)) = 5
    /\ List.length (visiting_events (trace r)) = 4.
Proof. eexists. repeat split; reflexivity. Qed.

(** Events and navigations in a session: one [visiting] event is sent per
    shift of a URL that the visited set does not hold; every navigation
    comes right after the delivery of the event of its URL; the delivered
    events follow the order of the shifts; nothing comes after the sending
    of the final result. *)
Lemma session_announces (env : Env) (fuel : nat) (url : json) (r : run) :
  session env fuel url = Some r ->
  visiting_sends (trace r) = shifted_fresh (trace r)
  /\ visiting_events (trace r) = navigations (trace r)
  /\ (forall pre u ok post,
         trace r = pre ++ Goto u ok :: post ->
         exists pre', pre = pre' ++ [Send (Visiting u) true])
  /\ visiting_events (trace r) `sublist_of` shifted (trace r)
  /\ (forall pre d ok post,
         trace r = pre ++ Send (ScrapedData d) ok :: post -> post = []).
Proof.
  intros Hs. apply session_shapes in Hs.
  assert (Hann : forall acts tail,
             announced acts -> announced tail ->
             announced ([Launch true; NewPage true] ++ acts ++ tail)).
  { intros acts tail Ha Ht. simpl.
    do 2 (apply announced_other; [discriminate|]). now apply announced_app. }
  assert (Hcatch : forall b, announced (catch_block env b)).
  { intros []; unfold catch_block;
      repeat (apply announced_other; [discriminate|]); constructor. }
  inversion Hs; subst; cbn [trace];
    try match goal with
        | H : loop _ _ _ _ _ = Some _ |- _ =>
            pose proof (loop_actions _ _ _ _ _ _ H) as Hla;
            apply loop_action_not_result in Hla;
            destruct (loop_events _ _ _ _ _ _ H) as (Ha & Hsd & Hev & Hsub);
            simpl in Ha, Hsd, Hev, Hsub, Hla
        end.
  1-3: (split; [reflexivity|]; split; [reflexivity|]; split;
        [|split; [repeat constructor|]]).
  1,3,5: intros pre u ok post Heq; eapply announced_split; [|exact Heq];
         unfold catch_block; simpl;
         repeat (apply announced_other; [discriminate|]); constructor.
  1-3: intros pre d ok post Heq; exfalso;
       eapply no_result_split; [| |exact Heq]; [|reflexivity];
       unfold catch_block; repeat constructor.
  all: unfold visiting_sends, shifted_fresh, visiting_events, navigations,
         attempts, shifted in *;
       unfold catch_block; cbn [app omap list_omap];
       rewrite !omap_app; cbn [omap list_omap];
       rewrite !app_nil_r.
  all: (split; [exact Hsd|]; split; [exact Hev|]; split;
        [|split; [exact Hsub|]]).
  all: try (intros pre u ok post Heq; eapply announced_split; [|exact Heq];
            do 2 (apply announced_other; [discriminate|]);
            apply announced_app; [exact Ha|];
            repeat (apply announced_other; [discriminate|]); constructor).
  - intros pre d ok post Heq. exfalso.
    eapply no_result_split; [| |exact Heq]; [|reflexivity].
    repeat (apply Forall_cons; split; [reflexivity|]).
    apply Forall_app. split; [exact Hla|]. repeat constructor.
  - intros pre d ok post Heq.
    eapply (result_is_last (Launch true :: NewPage true :: acts ++ [Close true]));
      [| |rewrite <- Heq; simpl; now rewrite <- app_assoc]; [|reflexivity].
    repeat (apply Forall_cons; split; [reflexivity|]).
    apply Forall_app. split; [exact Hla|]. repeat constructor.
  - intros pre d ok post Heq. exfalso.
    eapply no_result_split; [| |exact Heq]; [|reflexivity].
    repeat (apply Forall_cons; split; [reflexivity|]).
    apply Forall_app. split; [exact Hla|]. repeat constructor.
Qed.

(** *** Closing the browser *)

(** C9, as the claim states it, fails: the handler calls [browser.close()]
    on every path, but the call can throw, and then nothing releases the
    browser.  With a browser whose [close] throws, the close after the loop
    throws, the close of the [catch] block throws in turn, and the handler
    ends on that exception with the browser launched and never closed. *)
Lemma C9_close_throws :
  exists r,
    session Sample.stuck 10 (JStr Sample.home) = Some r
    /\ Launch true ∈ trace r
    /\ (Close true ∉ trace r)
    /\ List.filter uses_browser (trace r)
       = [NewPage true; Goto (JStr Sample.home) true;
          Content (JStr Sample.home) (Some Sample.two_links);
          Goto (JStr Sample.page2) false; Goto (JStr Sample.page3) true;
          Content (JStr Sample.page3) (Some Sample.leaf_doc);
          Close false; Close false]
    /\ ended r = Uncaught.
Proof.
  eexists. split; [reflexivity|]. split; [apply elem_of_cons; now left|].
  split; [|split; reflexivity].
  intros Hin. apply list_elem_of_In in Hin. vm_compute in Hin.
  repeat (destruct Hin as [Hin|Hin]; [discriminate|]). exact Hin.
Qed.

Lemma loop_actions_no_close (l : list action) (a : action) :
  Forall (fun b => loop_action b = true) l -> a ∈ l -> a <> Close true.
Proof.
  intros H Hin ->. rewrite Forall_forall in H. apply H in Hin. discriminate.
Qed.

(** C9 (amended).  Every session ends, and on every path on which the
    browser was launched the handler calls [browser.close()] before it
    ends; no call on the browser or its page follows the last close.  The
    browser is released unless that last close throws; it throws only as
    the close of the [catch] block, and then no close of the session has
    succeeded and the handler ends on that exception.  When the launch
    itself fails there is no browser, and no call on one. *)
Theorem C9_browser_closed (env : Env) (url : json) :
  (exists fuel r, session env fuel url = Some r)
  /\ (forall fuel r,
      session env fuel url = Some r ->
      (Launch true ∈ trace r ->
       exists pre ok post,
         trace r = pre ++ Close ok :: post
         /\ Forall (fun a => uses_browser a = false) post
         /\ (ok = false ->
             close_in_catch_ok env = false
             /\ ended r = Uncaught
             /\ (Close true ∉ trace r)))
      /\ (Launch true ∉ trace r ->
          Forall (fun a => uses_browser a = false) (trace r))).
Proof.
  split; [apply session_terminates|].
  intros fuel r Hs. apply session_shapes in Hs.
  assert (Hcatch : forall before : list action,
             (forall a, a ∈ before -> a <> Close true) ->
             close_in_catch_ok env = false ->
             close_in_catch_ok env = false
             /\ catch_ending env true = Uncaught
             /\ (Close true ∉ before ++ catch_block env true)).
  { intros before Hbefore H. split; [exact H|].
    split; [unfold catch_ending; now rewrite H|].
    unfold catch_block. rewrite H. intros Hin.
    rewrite elem_of_app, !elem_of_cons, elem_of_nil in Hin.
    destruct Hin as [Hin|[Hin|[Hin|[]]]]; try discriminate.
    exact (Hbefore _ Hin eq_refl). }
  assert (Hhead : forall (acts : list action) (a b : action),
             a <> Close true -> b <> Close true ->
             (forall x, x ∈ acts -> x <> Close true) ->
             forall x, x ∈ a :: b :: acts -> x <> Close true).
  { intros acts a b Ha Hb Hacts x Hin.
    rewrite !elem_of_cons in Hin.
    destruct Hin as [->|[->|Hin]]; [exact Ha|exact Hb|now apply Hacts]. }
  inversion Hs; subst; cbn [trace ended]; split.
  - intros Hin. exfalso. unfold catch_block in Hin.
    repeat (rewrite elem_of_cons in Hin || rewrite elem_of_nil in Hin).
    intuition discriminate.
  - intros _. repeat constructor.
  - intros _.
    exists [Launch true; NewPage false;
            Send (Error "An unexpected error occurred.") (reply_sent env)],
           (close_in_catch_ok env), [].
    split; [reflexivity|]. split; [constructor|].
    apply (Hcatch [Launch true; NewPage false]).
    apply Hhead; [discriminate..|]. intros x Hx. now apply elem_of_nil in Hx.
  - intros Hnot. exfalso. apply Hnot. apply elem_of_cons. now left.
  - intros _.
    exists [Launch true; NewPage true;
            Send (Error "An unexpected error occurred.") (reply_sent env)],
           (close_in_catch_ok env), [].
    split; [reflexivity|]. split; [constructor|].
    apply (Hcatch [Launch true; NewPage true]).
    apply Hhead; [discriminate..|]. intros x Hx. now apply elem_of_nil in Hx.
  - intros Hnot. exfalso. apply Hnot. apply elem_of_cons. now left.
  - intros _.
    exists ([Launch true; NewPage true] ++ acts
            ++ [Send (Error "An unexpected error occurred.") (reply_sent env)]),
           (close_in_catch_ok env), [].
    split; [unfold catch_block; simpl; now rewrite <- ?app_assoc|].
    split; [constructor|].
    intros Hcc.
    destruct (Hcatch ([Launch true; NewPage true] ++ acts))
      as (Hc1 & Hc2 & Hc3); [|exact Hcc|].
    + apply Hhead; [discriminate..|]. intros x Hx.
      eapply loop_actions_no_close; [|exact Hx].
      match goal with
      | Hl : loop _ _ _ _ _ = Some _ |- _ => exact (loop_actions _ _ _ _ _ _ Hl)
      end.
    + split; [exact Hc1|]. split; [exact Hc2|].
      now rewrite <- app_assoc in Hc3.
  - intros Hnot. exfalso. apply Hnot. apply elem_of_cons. now left.
  - intros _.
    exists ([Launch true; NewPage true] ++ acts), true,
           [Send (ScrapedData (scrapedData st)) (reply_sent env)].
    split; [simpl; now rewrite <- ?app_assoc|].
    split; [repeat constructor|]. discriminate.
  - intros Hnot. exfalso. apply Hnot. apply elem_of_cons. now left.
  - intros _.
    exists ([Launch true; NewPage true] ++ acts
            ++ [Close false;
                Send (Error "An unexpected error occurred.") (reply_sent env)]),
           (close_in_catch_ok env), [].
    split; [unfold catch_block; simpl; now rewrite <- ?app_assoc|].
    split; [constructor|].
    intros Hcc.
    destruct (Hcatch ([Launch true; NewPage true] ++ acts ++ [Close false]))
      as (Hc1 & Hc2 & Hc3); [|exact Hcc|].
    + apply Hhead; [discriminate..|]. intros x Hx.
      rewrite elem_of_app, list_elem_of_singleton in Hx.
      destruct Hx as [Hx| ->]; [|discriminate].
      eapply loop_actions_no_close; [|exact Hx].
      match goal with
      | Hl : loop _ _ _ _ _ = Some _ |- _ => exact (loop_actions _ _ _ _ _ _ Hl)
      end.
    + split; [exact Hc1|]. split; [exact Hc2|].
      rewrite <- !app_assoc in Hc3. exact Hc3.
  - intros Hnot. exfalso. apply Hnot. apply elem_of_cons. now left.
Qed.

Lemma C9_browser_closed_witness :
  exists r pre post,
    session Sample.breaking 10 (JStr Sample.home) = Some r
    /\ Launch true ∈ trace r
    /\ trace r = pre ++ Close true :: post
    /\ Forall (fun a => uses_browser a = false) post.
Proof.
  assert (Hin : Launch true
                ∈ trace (default (mkRun [] None Returned)
                           (session Sample.breaking 10 (JStr Sample.home)))).
  { apply elem_of_cons. now left. }
  destruct (proj1 (proj2 (C9_browser_closed Sample.breaking (JStr Sample.home))
                     10 _ eq_refl) Hin)
    as (pre & ok & post & Heq & Hpost & Hok).
  destruct ok; [|destruct (Hok eq_refl) as (Hc & _); discriminate].
  eexists. exists pre, post. split; [reflexivity|].
  split; [exact Hin|]. split; [exact Heq | exact Hpost].
Defined.

(** *** Link discovery *)

Lemma app_singleton_neq {A} (l : list A) (x : A) : l <> l ++ [x].
Proof.
  intros H. apply (f_equal (@List.length A)) in H.
  rewrite length_app in H. simpl in H. lia.
Qed.

Lemma iteration_queue (env : Env) (baseUrl : string) (n : nat) (u : json)
    (st : state) (c : completion) (st' : state) (acts : list action)
    (doc : Document) :
  iteration env baseUrl n u st = (c, st', acts) ->
  Content u (Some doc) ∈ acts ->
  urlQueue st' = push_links env baseUrl (visitedUrls st) (urlQueue st) doc.
Proof.
  intros Hit Hin. pose proof (iteration_cases env baseUrl n u st) as Hc.
  rewrite Hit in Hc.
  inversion Hc; subst;
    repeat (rewrite elem_of_cons in Hin || rewrite elem_of_nil in Hin);
    repeat match goal with
           | H : _ \/ _ |- _ => destruct H
           | H : False |- _ => destruct H
           | H : Content _ _ = _ |- _ => inversion H; clear H; subst
           end;
    reflexivity.
Qed.

(** C3, as the claim states it, fails: a link is left out, although it
    resolves to a URL that starts with the scope anchor, when its [href] is
    empty or is itself in the visited set.  On the sample site, with the
    home page visited, a link whose [href] is the URL of the home page is
    not enqueued. *)
Lemma C3_prefix_not_enough :
  Sample.URL_href Sample.home Sample.origin = Some Sample.home
  /\ startsWith Sample.home Sample.origin = true
  /\ link_step (Sample.site Sample.two_links) Sample.origin
       [JStr Sample.home] [] (Sample.anchor Sample.home) = []
  /\ Sample.URL_href "" Sample.origin = Some Sample.home
  /\ link_step (Sample.site Sample.two_links) Sample.origin
       [] [] (Sample.anchor "") = []
  /\ ~ (link_step (Sample.site Sample.two_links) Sample.origin
          [JStr Sample.home] [] (Sample.anchor Sample.home)
        = [] ++ [JStr Sample.home]
        <-> startsWith Sample.home Sample.origin = true).
Proof.
  repeat split; try reflexivity.
  intros [_ H]. specialize (H eq_refl). vm_compute in H. discriminate.
Qed.

(** C3 (amended).  A link whose [href] is empty, or is itself in the
    visited set, is skipped.  Any other [href] is resolved against the base
    of the session, which is the origin of the seed and does not depend on
    the page being visited; it is dropped when the resolution fails, and
    otherwise its resolved URL is pushed at the back of the queue exactly
    when it starts with the base. *)
Theorem C3_link_scope (env : Env) (url : json) :
  (forall baseUrl visited queue e link,
      href e = Some link ->
      (nonempty link = false \/ JSSet.has visited (JStr link) = true ->
       link_step env baseUrl visited queue e = queue)
      /\ (nonempty link = true -> JSSet.has visited (JStr link) = false ->
          (URL_href env link baseUrl = None ->
           link_step env baseUrl visited queue e = queue)
          /\ (forall absoluteLink,
                 URL_href env link baseUrl = Some absoluteLink ->
                 (startsWith absoluteLink baseUrl = false ->
                  link_step env baseUrl visited queue e = queue)
                 /\ (link_step env baseUrl visited queue e
                     = queue ++ [JStr absoluteLink]
                     <-> startsWith absoluteLink baseUrl = true))))
  /\ (forall baseUrl n u st c st' acts doc,
      iteration env baseUrl n u st = (c, st', acts) ->
      Content u (Some doc) ∈ acts ->
      urlQueue st'
      = fold_left (link_step env baseUrl (visitedUrls st))
          (List.filter matches_anchor doc) (urlQueue st))
  /\ (forall fuel r st,
      session env fuel url = Some r -> final r = Some st ->
      exists baseUrl m,
        URL_origin env url = Some baseUrl
        /\ reachable env baseUrl url m st).
Proof.
  split; [|split].
  - intros baseUrl visited queue e link He. unfold link_step. rewrite He.
    split.
    + intros [-> | ->]; [reflexivity|]. now rewrite andb_false_r.
    + intros -> ->. simpl. split.
      * now intros ->.
      * intros absoluteLink ->. split; [now intros ->|].
        destruct (startsWith absoluteLink baseUrl); split; intros H;
          try reflexivity; try discriminate.
        now apply app_singleton_neq in H.
  - intros baseUrl n u st c st' acts doc Hit Hin.
    exact (iteration_queue env baseUrl n u st c st' acts doc Hit Hin).
  - intros fuel r st Hs Hf. apply session_shapes in Hs.
    inversion Hs; subst; simpl in Hf; try discriminate;
      inversion Hf; subst;
      match goal with
      | H : loop _ ?b _ _ _ = Some _ |- _ =>
          destruct (loop_reachable env b url _ _ _ _ H (reach_initial _ _ _))
            as [m Hm]; exists b, m
      end;
      split; assumption.
Qed.

(** With scope anchor [https://a.example], a link that resolves to
    [https://a.example/page2] is enqueued and one that resolves to
    [https://other.example/x] is not. *)
Lemma C3_link_scope_witness :
  link_step (Sample.site Sample.two_links) Sample.origin [] []
    (Sample.anchor "/page2") = [] ++ [JStr "https://a.example/page2"]
  /\ link_step (Sample.site Sample.two_links) Sample.origin [] []
       (Sample.anchor "https://other.example/x") = []
  /\ exists r st m,
       session (Sample.site Sample.two_links) 10 (JStr Sample.home) = Some r
       /\ final r = Some st
       /\ reachable (Sample.site Sample.two_links) Sample.origin
            (JStr Sample.home) m st.
Proof.
  pose proof (C3_link_scope (Sample.site Sample.two_links) (JStr Sample.home))
    as (H & _ & Hbase).
  split; [|split].
  - apply (proj2 (proj2 (H Sample.origin [] [] (Sample.anchor "/page2")
                           "/page2" eq_refl) eq_refl eq_refl)
             "https://a.example/page2" eq_refl).
    reflexivity.
  - apply (proj2 (proj2 (H Sample.origin [] []
                           (Sample.anchor "https://other.example/x")
                           "https://other.example/x" eq_refl)
                    eq_refl eq_refl)
             "https://other.example/x" eq_refl).
    reflexivity.
  - destruct (Hbase 10 _ _ eq_refl eq_refl) as (baseUrl & m & Ho & Hm).
    inversion Ho; subst baseUrl.
    eexists. eexists. exists m.
    split; [reflexivity|]. split; [reflexivity | exact Hm].
Defined.

(** *** The request guard *)

(** A message that cannot be parsed, or whose parsed value is not [null]
    and has no truthy [url], is answered by one error message, and no
    browser is launched. *)
Lemma guard_rejects (env : Env) (fuel : nat) (message : parsed) :
  message = ParseThrows
  \/ (exists msgData u,
        message = Parsed msgData /\ destructure_url msgData = Some u
        /\ truthy u = false) ->
  exists text,
    on_message env fuel message
    = Some (mkRun [Send (Error text) (reply_sent env)] None
              (if reply_sent env then Returned else Uncaught)).
Proof.
  intros [-> | (msgData & u & -> & Hu & Hf)]; simpl.
  - now exists "Invalid message format".
  - rewrite Hu, Hf. now exists "URL is required".
Qed.

(** C8 fails on the message [null]: it parses, the parsed value has no
    [url], and the destructuring throws outside any [try]; the handler ends
    on the uncaught exception and sends nothing. *)
Theorem C8_null_message_unanswered (env : Env) (fuel : nat) :
  exists r,
    on_message env fuel (Parsed JNull) = Some r
    /\ ended r = Uncaught
    /\ outbound (trace r) = []
    /\ (forall text ok, Send (Error text) ok ∉ trace r).
Proof.
  exists (mkRun [] None Uncaught).
  split; [reflexivity|]. split; [reflexivity|]. split; [reflexivity|].
  intros text ok. apply not_elem_of_nil.
Qed.

(** * Further properties *)

(** ** The extractor, continued *)

Lemma has_content_false (s : Section_) :
  has_content s = false -> content s = [].
Proof.
  unfold has_content. destruct (content s); [reflexivity|discriminate].
Qed.

Lemma contents_app (l1 l2 : list Section_) :
  contents (l1 ++ l2) = contents l1 ++ contents l2.
Proof. unfold contents. now rewrite map_app, concat_app. Qed.

Lemma step_gathered (st : extractor) (e : element) :
  nonempty (trim (elemText e)) = true ->
  gathered (extract_element st e)
  = gathered st ++ (if is_heading e then [] else [item_of e]).
Proof.
  intros Hne. unfold extract_element, is_heading, gathered. rewrite Hne.
  destruct (startsWith (tagName e) "h"); simpl.
  - destruct (has_content (currentSection st)) eqn:Hc.
    + rewrite contents_app. unfold contents at 2. simpl.
      now rewrite !app_nil_r.
    + apply has_content_false in Hc. now rewrite Hc, !app_nil_r.
  - now rewrite app_assoc.
Qed.

Lemma walk_gathered (l : list element) (st : extractor) :
  Forall (fun e => nonempty (trim (elemText e)) = true) l ->
  gathered (fold_left extract_element l st)
  = gathered st
    ++ map item_of (List.filter (fun e => negb (is_heading e)) l).
Proof.
  revert st. induction l as [|e l IH]; intros st Hl; simpl.
  - now rewrite app_nil_r.
  - inversion Hl as [|? ? He Hl']; subst.
    rewrite IH by exact Hl'. rewrite step_gathered by exact He.
    destruct (is_heading e); simpl; now rewrite <- ?app_assoc.
Qed.

Lemma finish_gathered (st : extractor) :
  contents (extract_finish st) = gathered st.
Proof.
  unfold extract_finish, gathered.
  destruct (has_content (currentSection st)) eqn:Hc.
  - rewrite contents_app. unfold contents at 2. simpl. now rewrite app_nil_r.
  - apply has_content_false in Hc. now rewrite Hc, app_nil_r.
Qed.

Lemma extract_contents (doc : Document) :
  contents (extract doc)
  = map item_of (List.filter (fun e => negb (is_heading e)) (effective doc)).
Proof.
  unfold extract. rewrite walk_effective, finish_gathered.
  rewrite walk_gathered by apply effective_nonempty.
  reflexivity.
Qed.

(** X1.  The extractor loses nothing and keeps the order: the items of the
    sections it returns, read in order, are the content elements of the
    document that have text, each with its tag and its trimmed text. *)
Theorem X1_extract_keeps_content (doc : Document) :
  contents (extract doc)
  = map item_of (List.filter (fun e => negb (is_heading e)) (effective doc)).
Proof.
  unfold extract. rewrite walk_effective, finish_gathered.
  rewrite walk_gathered by apply effective_nonempty.
  reflexivity.
Qed.

Lemma step_titles (st : extractor) (e : element) (T : list string) :
  nonempty (trim (elemText e)) = true ->
  titles_of st `sublist_of` T ->
  titles_of (extract_element st e)
  `sublist_of` T ++ (if is_heading e then [heading_text e] else []).
Proof.
  intros Hne HT. unfold extract_element, is_heading, titles_of in *.
  rewrite Hne. destruct (startsWith (tagName e) "h"); simpl.
  - destruct (has_content (currentSection st)).
    + rewrite map_app. simpl. now apply sublist_app.
    + apply sublist_app; [|reflexivity].
      etransitivity; [|exact HT]. apply sublist_inserts_r. reflexivity.
  - now rewrite app_nil_r.
Qed.

Lemma walk_titles (l : list element) (st : extractor) (T : list string) :
  Forall (fun e => nonempty (trim (elemText e)) = true) l ->
  titles_of st `sublist_of` T ->
  titles_of (fold_left extract_element l st)
  `sublist_of` T ++ map heading_text (List.filter is_heading l).
Proof.
  revert st T. induction l as [|e l IH]; intros st T Hl HT; simpl.
  - now rewrite app_nil_r.
  - inversion Hl as [|? ? He Hl']; subst.
    pose proof (step_titles st e T He HT) as Hstep.
    specialize (IH _ _ Hl' Hstep).
    destruct (is_heading e); simpl in *; now rewrite <- ?app_assoc in IH.
Qed.

Lemma finish_titles (st : extractor) :
  map title (extract_finish st) `sublist_of` titles_of st.
Proof.
  unfold extract_finish, titles_of. destruct (has_content _).
  - now rewrite map_app.
  - apply sublist_inserts_r. reflexivity.
Qed.

Lemma sections_le_contents (l : list Section_) :
  Forall (fun s => content s <> []) l ->
  List.length l <= List.length (contents l).
Proof.
  induction 1 as [|s l Hs _ IH]; [reflexivity|].
  unfold contents in *. simpl. rewrite length_app.
  destruct (content s); [congruence|]. simpl. lia.
Qed.

(** X2.  The titles of the sections, in order, are taken from the empty
    title followed by the trimmed texts of the headings of the document, in
    order; so there are at most one more sections than headings, and no more
    sections than content elements with text. *)
Theorem X2_extract_titles (doc : Document) :
  map title (extract doc)
  `sublist_of` "" :: map heading_text (List.filter is_heading (effective doc))
  /\ List.length (extract doc)
     <= S (List.length (List.filter is_heading (effective doc)))
  /\ List.length (extract doc)
     <= List.length (List.filter (fun e => negb (is_heading e)) (effective doc)).
Proof.
  assert (Hsub : map title (extract doc)
                 `sublist_of` "" :: map heading_text
                                      (List.filter is_heading (effective doc))).
  { unfold extract. rewrite walk_effective.
    etransitivity; [apply finish_titles|].
    apply (walk_titles (effective doc) extractor_init [""]).
    - apply effective_nonempty.
    - reflexivity. }
  split; [exact Hsub|]. split.
  - apply sublist_length in Hsub. simpl in Hsub.
    now rewrite !length_map in Hsub.
  - rewrite <- (length_map item_of), <- extract_contents.
    apply sections_le_contents.
    unfold extract, extract_finish.
    pose proof (walk_flushed_nonempty (List.filter matches_content doc)
                  extractor_init (List.Forall_nil _)) as H.
    destruct (has_content _) eqn:Hc; [|exact H].
    apply Forall_app. split; [exact H|].
    constructor; [|constructor]. now apply has_content_true.
Qed.

Lemma content_tag_cases (e : element) :
  matches_content e = true -> is_heading e = false ->
  tagName e ∈ ["p"; "span"; "li"; "pre"; "code"].
Proof.
  unfold matches_content, is_heading. intros Hm Hh.
  apply existsb_exists in Hm as (t & Hin & Heq).
  apply String.eqb_eq in Heq. rewrite Heq in *. clear Heq.
  apply list_elem_of_In.
  simpl in Hin.
  repeat (destruct Hin as [<-|Hin]; [first [discriminate Hh | simpl; tauto]|]).
  destruct Hin.
Qed.

(** X3.  Every item the extractor returns carries a non-empty text and one
    of the tags [p], [span], [li], [pre], [code]: headings and elements
    without text never appear as items. *)
Theorem X3_extract_items_well_formed (doc : Document) :
  Forall (fun s =>
            Forall (fun i => nonempty (text i) = true
                             /\ tag i ∈ ["p"; "span"; "li"; "pre"; "code"])
                   (content s))
         (extract doc).
Proof.
  assert (H : Forall (fun i => nonempty (text i) = true
                               /\ tag i ∈ ["p"; "span"; "li"; "pre"; "code"])
                     (contents (extract doc))).
  { rewrite extract_contents. apply Forall_forall. intros i Hi.
    apply list_elem_of_In, in_map_iff in Hi as (e & <- & He).
    apply filter_In in He as [He Hh].
    unfold effective in He. apply filter_In in He as [_ He].
    apply andb_true_iff in He as [Hm Hne].
    apply negb_true_iff in Hh. simpl. split; [exact Hne|].
    now apply content_tag_cases. }
  revert H. unfold contents. induction (extract doc) as [|s l IH]; intros H.
  - constructor.
  - simpl in H. apply Forall_app in H as [Hs Hl]. constructor; auto.
Qed.

Lemma effective_app (d1 d2 : Document) :
  effective (d1 ++ d2) = effective d1 ++ effective d2.
Proof. unfold effective. apply List.filter_app. Qed.

Lemma effective_fixed (l : list element) :
  Forall (fun e => matches_content e && nonempty (trim (elemText e)) = true) l ->
  effective l = l.
Proof.
  induction 1 as [|e l He _ IH]; [reflexivity|].
  unfold effective in *. simpl. now rewrite He, IH.
Qed.

Lemma effective_all (doc : Document) :
  Forall (fun e => matches_content e && nonempty (trim (elemText e)) = true)
         (effective doc).
Proof.
  apply Forall_forall. intros e He.
  apply list_elem_of_In, filter_In in He. tauto.
Qed.

Lemma extract_effective (doc : Document) :
  extract (effective doc) = extract doc.
Proof.
  unfold extract. rewrite !walk_effective.
  now rewrite (effective_fixed _ (effective_all doc)).
Qed.

(** Sections flushed before a point of the walk stay in front. *)
Lemma step_flushed_prefix (e : element) (P pd : list Section_)
    (cur : Section_) :
  extract_element (mkExtractor (P ++ pd) cur) e
  = mkExtractor
      (P ++ pageData (extract_element (mkExtractor pd cur) e))
      (currentSection (extract_element (mkExtractor pd cur) e)).
Proof.
  unfold extract_element. cbn [pageData currentSection].
  destruct (nonempty _); [|reflexivity].
  destruct (startsWith _ _); [|reflexivity].
  destruct (has_content cur); cbn [pageData currentSection];
    now rewrite ?app_assoc.
Qed.

Lemma walk_flushed_prefix (l : list element) (P pd : list Section_)
    (cur : Section_) :
  fold_left extract_element l (mkExtractor (P ++ pd) cur)
  = mkExtractor
      (P ++ pageData (fold_left extract_element l (mkExtractor pd cur)))
      (currentSection (fold_left extract_element l (mkExtractor pd cur))).
Proof.
  revert pd cur. induction l as [|e l IH]; intros pd cur; [reflexivity|].
  cbn [fold_left]. rewrite step_flushed_prefix.
  destruct (extract_element (mkExtractor pd cur) e) as [pd' cur'].
  apply IH.
Qed.

Lemma finish_flushed_prefix (P : list Section_) (st : extractor) :
  extract_finish (mkExtractor (P ++ pageData st) (currentSection st))
  = P ++ extract_finish st.
Proof.
  unfold extract_finish. cbn [pageData currentSection].
  destruct (has_content _); now rewrite ?app_assoc.
Qed.

Lemma extract_at_heading (l1 l2 : list element) :
  match l2 with [] => True | e :: _ => is_heading e = true end ->
  Forall (fun e => nonempty (trim (elemText e)) = true) l2 ->
  extract_finish (fold_left extract_element (l1 ++ l2) extractor_init)
  = extract_finish (fold_left extract_element l1 extractor_init)
    ++ extract_finish (fold_left extract_element l2 extractor_init).
Proof.
  intros Hh Hne. rewrite fold_left_app.
  destruct l2 as [|h l2]; [simpl; now rewrite app_nil_r|].
  inversion Hne as [|? ? Hh1 _]; subst.
  set (st1 := fold_left extract_element l1 extractor_init).
  cbn [fold_left]. unfold extract_element at 2 4.
  rewrite Hh1. unfold is_heading in Hh. rewrite Hh.
  change (has_content (currentSection extractor_init)) with false.
  cbv iota. cbn [pageData extractor_init].
  change (if has_content (currentSection st1)
          then pageData st1 ++ [currentSection st1] else pageData st1)
    with (extract_finish st1).
  rewrite <- (app_nil_r (extract_finish st1)) at 1.
  rewrite walk_flushed_prefix.
  apply finish_flushed_prefix.
Qed.

Lemma extract_app_heading (d1 d2 : Document) :
  starts_with_heading d2 ->
  extract (d1 ++ d2) = extract d1 ++ extract d2.
Proof.
  intros Hh. unfold extract. rewrite !walk_effective, effective_app.
  apply extract_at_heading; [exact Hh | apply effective_nonempty].
Qed.

(** X4.  A document cut in front of a heading is extracted piece by piece:
    when the second part has nothing for the extractor or begins, for it,
    with a heading, the sections of the whole are those of the first part
    followed by those of the second. *)
Theorem X4_extract_splits_at_heading (d1 d2 : Document) :
  starts_with_heading d2 ->
  extract (d1 ++ d2) = extract d1 ++ extract d2.
Proof.
  intros Hh. unfold extract. rewrite !walk_effective, effective_app.
  apply extract_at_heading; [exact Hh | apply effective_nonempty].
Qed.

Lemma X4_extract_splits_at_heading_witness :
  starts_with_heading [Element "h2" "B" None; Element "p" "y" None]
  /\ extract (Sample.boundary_doc
              ++ [Element "h2" "B" None; Element "p" "y" None])
     = extract Sample.boundary_doc
       ++ [mkSection "B" [mkItem "p" "y"]].
Proof.
  assert (H : starts_with_heading
                [Element "h2" "B" None; Element "p" "y" None])
    by reflexivity.
  split; [exact H|].
  exact (X4_extract_splits_at_heading Sample.boundary_doc _ H).
Defined.

Lemma walk_body (body : list element) (pd : list Section_) (t : string)
    (items : list Item) :
  Forall (fun e => nonempty (trim (elemText e)) = true) body ->
  Forall (fun e => is_heading e = false) body ->
  fold_left extract_element body (mkExtractor pd (mkSection t items))
  = mkExtractor pd (mkSection t (items ++ map item_of body)).
Proof.
  revert items. induction body as [|e body IH]; intros items Hne Hh.
  - simpl. now rewrite app_nil_r.
  - inversion Hne as [|? ? He Hne']; subst.
    inversion Hh as [|? ? Hhe Hh']; subst.
    cbn [fold_left]. unfold extract_element at 2.
    unfold is_heading in Hhe. rewrite He, Hhe.
    cbn [pageData currentSection title content].
    rewrite IH by assumption. cbn [map]. now rewrite <- app_assoc.
Qed.

Lemma Forall_effective_parts (l : list element) :
  Forall (fun e => matches_content e && nonempty (trim (elemText e)) = true) l ->
  effective l = l
  /\ Forall (fun e => nonempty (trim (elemText e)) = true) l.
Proof.
  intros H. split; [now apply effective_fixed|].
  eapply Forall_impl; [exact H|]. intros e He.
  apply andb_true_iff in He. tauto.
Qed.

Lemma extract_run (t : string) (body : list element) :
  Forall (fun e => matches_content e && nonempty (trim (elemText e)) = true)
         body ->
  Forall (fun e => is_heading e = false) body ->
  body <> [] ->
  extract_finish
    (fold_left extract_element body (mkExtractor [] (mkSection t [])))
  = [mkSection t (map item_of body)].
Proof.
  intros Heff Hh Hne.
  destruct (Forall_effective_parts body Heff) as [_ Htext].
  rewrite walk_body by assumption. unfold extract_finish.
  cbn [pageData currentSection app].
  destruct body as [|e body]; [congruence|]. reflexivity.
Qed.

(** X5.  Each run of content becomes one section under the heading in
    front of it: where the elements the extractor acts on read as a heading,
    then one or more content elements, then another heading or the end, the
    output holds, at that place, the section titled by the trimmed text of
    the heading with exactly those elements as items.  A run at the very
    start, with no heading in front, becomes the first section, with the
    empty title. *)
Theorem X5_extract_sections_of_runs (doc : Document)
    (pre body rest : list element) :
  Forall (fun e => is_heading e = false) body ->
  body <> [] ->
  match rest with [] => True | e :: _ => is_heading e = true end ->
  (forall h,
      effective doc = pre ++ h :: body ++ rest ->
      is_heading h = true ->
      extract doc
      = extract pre ++ mkSection (heading_text h) (map item_of body)
                       :: extract rest)
  /\ (effective doc = body ++ rest ->
      extract doc = mkSection "" (map item_of body) :: extract rest).
Proof.
  intros Hbody Hne Hrest.
  pose proof (effective_all doc) as Hall.
  split.
  - intros h Heq Hh. rewrite Heq in Hall.
    apply Forall_app in Hall as [_ Hall].
    apply Forall_cons in Hall as [Hheff Hall].
    apply Forall_app in Hall as [Hbeff Hreff].
    destruct (Forall_effective_parts rest Hreff) as [Hrfix _].
    rewrite <- extract_effective, Heq.
    rewrite extract_app_heading.
    2:{ unfold starts_with_heading.
        rewrite (effective_fixed (h :: body ++ rest)); [exact Hh|].
        constructor; [exact Hheff|]. apply Forall_app. now split. }
    f_equal.
    change (h :: body ++ rest) with ((h :: body) ++ rest).
    rewrite extract_app_heading
      by (unfold starts_with_heading; now rewrite Hrfix).
    change (mkSection (heading_text h) (map item_of body) :: extract rest)
      with ([mkSection (heading_text h) (map item_of body)] ++ extract rest).
    f_equal.
    unfold extract. rewrite walk_effective.
    rewrite (effective_fixed (h :: body)) by (constructor; assumption).
    cbn [fold_left]. unfold extract_element at 2.
    apply andb_true_iff in Hheff as [_ Hhtext].
    unfold is_heading in Hh. rewrite Hhtext, Hh.
    change (has_content (currentSection extractor_init)) with false.
    cbv iota. cbn [pageData extractor_init].
    now apply extract_run.
  - intros Heq. rewrite Heq in Hall.
    apply Forall_app in Hall as [Hbeff Hreff].
    destruct (Forall_effective_parts rest Hreff) as [Hrfix _].
    rewrite <- extract_effective, Heq.
    rewrite extract_app_heading
      by (unfold starts_with_heading; now rewrite Hrfix).
    change (mkSection "" (map item_of body) :: extract rest)
      with ([mkSection "" (map item_of body)] ++ extract rest).
    f_equal.
    unfold extract. rewrite walk_effective.
    rewrite (effective_fixed body) by assumption.
    now apply extract_run.
Qed.

Lemma X5_extract_sections_of_runs_witness :
  extract Sample.leading_doc
  = extract [Element "p" " intro " None]
    ++ mkSection "Two" [mkItem "li" "item"] :: extract []
  /\ extract Sample.leading_doc
     = mkSection "" [mkItem "p" "intro"]
       :: extract [Element "h1" "One" None; Element "h2" "Two" None;
                   Element "li" "item" None].
Proof.
  split.
  - apply (proj1 (X5_extract_sections_of_runs Sample.leading_doc
                    [Element "p" " intro " None; Element "h1" "One" None]
                    [Element "li" "item" None] []
                    ltac:(repeat constructor) ltac:(discriminate) I)
             (Element "h2" "Two" None)); reflexivity.
  - apply (proj2 (X5_extract_sections_of_runs Sample.leading_doc []
                    [Element "p" " intro " None]
                    [Element "h1" "One" None; Element "h2" "Two" None;
                     Element "li" "item" None]
                    ltac:(repeat constructor) ltac:(discriminate)
                    eq_refl)); reflexivity.
Defined.

(** ** Link discovery, continued *)

Lemma link_step_app (env : Env) (baseUrl : string) (visited : JSSet.t)
    (queue : list json) (e : element) :
  link_step env baseUrl visited queue e
  = queue ++ link_step env baseUrl visited [] e.
Proof.
  unfold link_step. destruct (href e) as [link|]; [|now rewrite app_nil_r].
  destruct (nonempty link && negb (JSSet.has visited (JStr link)));
    [|now rewrite app_nil_r].
  destruct (URL_href env link baseUrl) as [s|]; [|now rewrite app_nil_r].
  destruct (startsWith s baseUrl); [reflexivity | now rewrite app_nil_r].
Qed.

Lemma fold_link_step_app (env : Env) (baseUrl : string) (visited : JSSet.t)
    (l : list element) (queue : list json) :
  fold_left (link_step env baseUrl visited) l queue
  = queue ++ fold_left (link_step env baseUrl visited) l [].
Proof.
  revert queue. induction l as [|e l IH]; intros queue; simpl.
  - now rewrite app_nil_r.
  - rewrite IH, (IH (link_step env baseUrl visited [] e)), app_assoc.
    now rewrite <- link_step_app.
Qed.

Lemma push_links_app (env : Env) (baseUrl : string) (visited : JSSet.t)
    (queue : list json) (doc : Document) :
  push_links env baseUrl visited queue doc
  = queue ++ push_links env baseUrl visited [] doc.
Proof. apply fold_link_step_app. Qed.

Lemma link_step_single (env : Env) (baseUrl : string) (visited : JSSet.t)
    (e : element) (v : json) :
  v ∈ link_step env baseUrl visited [] e
  <-> exists link s,
        href e = Some link /\ nonempty link = true
        /\ JSSet.has visited (JStr link) = false
        /\ URL_href env link baseUrl = Some s
        /\ startsWith s baseUrl = true /\ v = JStr s.
Proof.
  unfold link_step. split.
  - destruct (href e) as [link|]; [|now intros ?%elem_of_nil].
    destruct (nonempty link) eqn:Hn; simpl; [|now intros ?%elem_of_nil].
    destruct (JSSet.has visited (JStr link)) eqn:Hv; simpl;
      [now intros ?%elem_of_nil|].
    destruct (URL_href env link baseUrl) as [s|] eqn:Hr;
      [|now intros ?%elem_of_nil].
    destruct (startsWith s baseUrl) eqn:Hp; [|now intros ?%elem_of_nil].
    intros ->%list_elem_of_singleton. exists link, s. auto 10.
  - intros (link & s & -> & -> & -> & -> & -> & ->). simpl.
    now apply list_elem_of_singleton.
Qed.

Lemma fold_link_step_elem (env : Env) (baseUrl : string) (visited : JSSet.t)
    (l : list element) (v : json) :
  v ∈ fold_left (link_step env baseUrl visited) l []
  <-> exists e, e ∈ l /\ v ∈ link_step env baseUrl visited [] e.
Proof.
  induction l as [|e l IH]; simpl.
  - split; [now intros ?%elem_of_nil|]. now intros (e & ?%elem_of_nil & _).
  - rewrite fold_link_step_app, elem_of_app, IH. split.
    + intros [H|(e' & He' & H)].
      * exists e. split; [now left|exact H].
      * exists e'. split; [now right|exact H].
    + intros (e' & [->|He']%elem_of_cons & H); [now left|].
      right. eauto.
Qed.

Lemma fold_link_step_length (env : Env) (baseUrl : string)
    (visited : JSSet.t) (l : list element) :
  List.length (fold_left (link_step env baseUrl visited) l [])
  <= List.length l.
Proof.
  induction l as [|e l IH]; simpl; [reflexivity|].
  rewrite fold_link_step_app, length_app.
  assert (List.length (link_step env baseUrl visited [] e) <= 1).
  { unfold link_step. destruct (href e); [|simpl; lia].
    destruct (_ && _); [|simpl; lia].
    destruct (URL_href _ _ _); [|simpl; lia].
    destruct (startsWith _ _); simpl; lia. }
  lia.
Qed.

Lemma push_links_elem (env : Env) (baseUrl : string) (visited : JSSet.t)
    (doc : Document) (v : json) :
  v ∈ push_links env baseUrl visited [] doc
  <-> exists s, v = JStr s /\ accepted_link env baseUrl visited doc s.
Proof.
  unfold push_links, accepted_link. rewrite fold_link_step_elem. split.
  - intros (e & He & Hv).
    apply list_elem_of_In, filter_In in He as [He Ha].
    apply link_step_single in Hv
      as (link & s & Hh & Hn & Hvis & Hr & Hp & ->).
    exists s. split; [reflexivity|]. exists e, link.
    repeat split; try assumption. now apply list_elem_of_In.
  - intros (s & -> & e & link & He & Ha & Hh & Hn & Hvis & Hr & Hp).
    exists e. split.
    + apply list_elem_of_In, filter_In. split; [now apply list_elem_of_In|].
      exact Ha.
    + apply link_step_single. exists link, s. auto 10.
Qed.

(** X6.  The link loop only appends to the queue, and what it appends does
    not depend on the queue: the URLs it adds are exactly the strings that
    some anchor of the page resolves to, for the anchors whose [href] is not
    empty and not in the visited set and whose resolution starts with the
    base; there are at most as many as the page has anchors. *)
Theorem X6_push_links_appends (env : Env) (baseUrl : string)
    (visited : JSSet.t) (queue : list json) (doc : Document) :
  push_links env baseUrl visited queue doc
  = queue ++ push_links env baseUrl visited [] doc
  /\ (forall v,
        v ∈ push_links env baseUrl visited [] doc
        <-> exists s, v = JStr s /\ accepted_link env baseUrl visited doc s)
  /\ List.length (push_links env baseUrl visited [] doc)
     <= List.length (List.filter matches_anchor doc).
Proof.
  split; [apply push_links_app|]. split.
  - intros v. apply push_links_elem.
  - apply fold_link_step_length.
Qed.

(** ** The session, continued *)

Lemma push_links_in_scope (env : Env) (url : json) (baseUrl : string)
    (visited : JSSet.t) (queue : list json) (doc : Document) :
  Forall (in_scope url baseUrl) queue ->
  Forall (in_scope url baseUrl) (push_links env baseUrl visited queue doc).
Proof.
  intros Hq. rewrite push_links_app. apply Forall_app. split; [exact Hq|].
  apply Forall_forall. intros v Hv.
  apply push_links_elem in Hv as (s & -> & e & link & H).
  right. exists s. split; [reflexivity|]. tauto.
Qed.

Lemma iteration_in_scope (env : Env) (url : json) (baseUrl : string)
    (n : nat) (u : json) (st : state) (c : completion) (st' : state)
    (acts : list action) :
  iteration env baseUrl n u st = (c, st', acts) ->
  in_scope url baseUrl u ->
  Forall (in_scope url baseUrl) (urlQueue st) ->
  Forall (fun a => forall v, action_url a = Some v -> in_scope url baseUrl v)
         acts
  /\ Forall (in_scope url baseUrl) (urlQueue st').
Proof.
  intros Hit Hu Hq. pose proof (iteration_cases env baseUrl n u st) as Hc.
  rewrite Hit in Hc.
  assert (Hall : forall l,
             Forall (fun a => forall v, action_url a = Some v -> v = u) l ->
             Forall (fun a => forall v, action_url a = Some v ->
                                        in_scope url baseUrl v) l).
  { intros l Hl. eapply Forall_impl; [exact Hl|].
    intros a Ha v Hv. now rewrite (Ha v Hv). }
  inversion Hc; subst; (split; [apply Hall|try exact Hq]);
    try (repeat (apply Forall_cons; split;
                 [intros v Hv; simpl in Hv; congruence|]);
         apply Forall_nil_2).
  now apply push_links_in_scope.
Qed.

Lemma loop_in_scope (env : Env) (url : json) (baseUrl : string)
    (fuel n : nat) (st : state) (res : completion * state * list action) :
  loop env baseUrl fuel n st = Some res ->
  Forall (in_scope url baseUrl) (urlQueue st) ->
  Forall (fun a => forall v, action_url a = Some v -> in_scope url baseUrl v)
         (snd res)
  /\ Forall (in_scope url baseUrl) (urlQueue (snd (fst res))).
Proof.
  revert fuel n st res.
  apply (loop_result_ind env baseUrl
           (fun n st res =>
              Forall (in_scope url baseUrl) (urlQueue st) ->
              Forall (fun a => forall v, action_url a = Some v ->
                                         in_scope url baseUrl v) (snd res)
              /\ Forall (in_scope url baseUrl) (urlQueue (snd (fst res)))));
    simpl.
  - intros n st _ Hq. split; [constructor | exact Hq].
  - intros n st _ Hq. split; [constructor | exact Hq].
  - intros n u rest visited scraped c st' acts _ Hit _ Hq.
    apply Forall_cons in Hq as [Hu Hq].
    eapply iteration_in_scope; eauto.
  - intros n u rest visited scraped st' acts c st'' acts' _ Hit IH Hq.
    apply Forall_cons in Hq as [Hu Hq].
    destruct (iteration_in_scope env url baseUrl _ _ _ _ _ _ Hit Hu Hq)
      as [Ha Hq'].
    destruct (IH Hq') as [Ha' Hq''].
    split; [|exact Hq'']. apply Forall_app. now split.
Qed.

Lemma session_loop (env : Env) (url : json) (r : run) (st : state) :
  session_shape env url r -> final r = Some st ->
  exists baseUrl fuel c acts tail,
    URL_origin env url = Some baseUrl
    /\ loop env baseUrl fuel 0 (initial url) = Some (c, st, acts)
    /\ trace r = [Launch true; NewPage true] ++ acts ++ tail
    /\ Forall (fun a => loop_action a = false) tail.
Proof.
  intros Hs Hf.
  inversion Hs; subst; simpl in Hf; try discriminate; inversion Hf; subst;
    exists baseUrl, fuel; eexists; exists acts; eexists;
    (split; [eassumption|]); (split; [eassumption|]);
    (split; [reflexivity|]); unfold catch_block; repeat constructor.
Qed.

Lemma session_without_loop (env : Env) (url : json) (r : run) :
  session_shape env url r -> final r = None ->
  Forall (fun a => loop_action a = false) (trace r).
Proof.
  intros Hs Hf.
  inversion Hs; subst; simpl in Hf; try discriminate;
    unfold catch_block; repeat constructor.
Qed.

Lemma loop_action_url (a : action) (v : json) :
  action_url a = Some v -> loop_action a = true.
Proof. destruct a as [| | |[]| | |]; simpl; congruence. Qed.

(** X7.  A session stays within its scope: every URL it shifts off the
    queue, announces, navigates to or reads the content of is the seed
    itself or a string that starts with the origin of the seed, and so is
    every URL left in the queue when it ends. *)
Theorem X7_session_stays_in_scope (env : Env) (fuel : nat) (url : json)
    (r : run) (baseUrl : string) :
  session env fuel url = Some r ->
  URL_origin env url = Some baseUrl ->
  (forall a v, a ∈ trace r -> action_url a = Some v -> in_scope url baseUrl v)
  /\ (forall st, final r = Some st ->
        Forall (in_scope url baseUrl) (urlQueue st)).
Proof.
  intros Hs Ho. apply session_shapes in Hs.
  destruct (final r) as [st|] eqn:Hf.
  - destruct (session_loop env url r st Hs Hf)
      as (b & fuel' & c & acts & tail & Ho' & Hloop & Htrace & Htail).
    assert (b = baseUrl) as -> by congruence.
    destruct (loop_in_scope env url baseUrl _ _ _ _ Hloop) as [Ha Hq].
    { repeat constructor. }
    simpl in Ha, Hq. split.
    + intros a v Hin Hv. rewrite Htrace in Hin.
      simpl in Hin.
      repeat (rewrite elem_of_cons in Hin || rewrite elem_of_app in Hin).
      destruct Hin as [->|[->|[Hin|Hin]]]; try discriminate.
      * rewrite Forall_forall in Ha. eauto.
      * rewrite Forall_forall in Htail. apply Htail in Hin.
        apply loop_action_url in Hv. congruence.
    + intros st' Hst'. inversion Hst'; subst. exact Hq.
  - split; [|discriminate].
    intros a v Hin Hv.
    pose proof (session_without_loop env url r Hs Hf) as Hall.
    rewrite Forall_forall in Hall. apply Hall in Hin.
    apply loop_action_url in Hv. congruence.
Qed.

Lemma X7_session_stays_in_scope_witness :
  exists r,
    session (Sample.site Sample.two_links) 10 (JStr Sample.home) = Some r
    /\ Goto (JStr Sample.page3) true ∈ trace r
    /\ in_scope (JStr Sample.home) Sample.origin (JStr Sample.page3).
Proof.
  eexists. split; [reflexivity|].
  assert (Hin : Goto (JStr Sample.page3) true
                ∈ trace (default (mkRun [] None Returned)
                           (session (Sample.site Sample.two_links) 10
                              (JStr Sample.home)))).
  { apply list_elem_of_In. vm_compute. do 11 right. left. reflexivity. }
  split; [exact Hin|].
  exact (proj1 (X7_session_stays_in_scope (Sample.site Sample.two_links) 10
                  (JStr Sample.home) _ Sample.origin eq_refl eq_refl)
           (Goto (JStr Sample.page3) true) (JStr Sample.page3) Hin eq_refl).
Defined.

(** *** Records and the visited set *)

Lemma iteration_records (env : Env) (baseUrl : string) (n : nat) (u : json)
    (st : state) (c : completion) (st' : state) (acts : list action) :
  iteration env baseUrl n u st = (c, st', acts) ->
  map url (scrapedData st) = visitedUrls st ->
  map url (scrapedData st') = visitedUrls st'.
Proof.
  intros Hit Hinv. pose proof (iteration_cases env baseUrl n u st) as Hc.
  rewrite Hit in Hc. inversion Hc; subst; try exact Hinv.
  simpl. rewrite map_app, Hinv. simpl.
  now rewrite add_fresh by assumption.
Qed.

Lemma reachable_records (env : Env) (baseUrl : string) (seed : json)
    (n : nat) (st : state) :
  reachable env baseUrl seed n st ->
  map url (scrapedData st) = visitedUrls st.
Proof.
  induction 1 as [|n u rest visited scraped c st' acts Hr IH Hlt Hit];
    [reflexivity|].
  eapply iteration_records; eauto.
Qed.

Lemma session_result_message (env : Env) (url : json) (r : run)
    (d : list PageRecord) (ok : bool) :
  session_shape env url r ->
  Send (ScrapedData d) ok ∈ trace r ->
  exists st, final r = Some st /\ d = scrapedData st.
Proof.
  intros Hs Hsend.
  inversion Hs; subst; unfold catch_block in Hsend; simpl in Hsend;
    repeat (rewrite elem_of_cons in Hsend || rewrite elem_of_app in Hsend
            || rewrite elem_of_nil in Hsend).
  all: try match goal with
       | H : loop _ _ _ _ _ = Some (_, _, ?l) |- _ =>
           pose proof (loop_actions _ _ _ _ _ _ H) as Hla; simpl in Hla;
           rewrite Forall_forall in Hla
       end.
  all: repeat match goal with
              | H : _ \/ _ |- _ => destruct H
              | H : False |- _ => destruct H
              | H : Send (ScrapedData _) _ = _ |- _ =>
                  inversion H; clear H; subst
              | H : Send (ScrapedData _) _ ∈ _ |- _ =>
                  apply Hla in H; simpl in H; discriminate
              end.
  all: try discriminate.
  eexists. split; reflexivity.
Qed.

Lemma session_final_reachable (env : Env) (url : json) (r : run)
    (st : state) :
  session_shape env url r -> final r = Some st ->
  exists baseUrl m, reachable env baseUrl url m st.
Proof.
  intros Hs Hf.
  destruct (session_loop env url r st Hs Hf)
    as (b & fuel' & c & acts & tail & _ & Hloop & _).
  destruct (loop_reachable env b url _ _ _ _ Hloop (reach_initial _ _ _))
    as [m Hm].
  eauto.
Qed.

(** X8.  The result list mirrors the visited set: in every state the session
    reaches, the URLs of the page records are the members of the visited
    set, in the same order.  So a [scrapedData] message never carries more
    than [MAX_PAGES] records, and never two records for one URL. *)
Theorem X8_records_mirror_visited (env : Env) (seed : json) :
  (forall baseUrl n st,
      reachable env baseUrl seed n st ->
      map url (scrapedData st) = visitedUrls st)
  /\ (forall fuel r d ok,
      session env fuel seed = Some r ->
      Send (ScrapedData d) ok ∈ trace r ->
      List.length d <= MAX_PAGES /\ NoDup (map url d)).
Proof.
  split; [intros baseUrl n st; apply reachable_records|].
  intros fuel r d ok Hs Hsend. apply session_shapes in Hs.
  destruct (session_result_message env seed r d ok Hs Hsend)
    as (st & Hf & ->).
  destruct (session_final_reachable env seed r st Hs Hf) as (b & m & Hm).
  pose proof (reachable_records _ _ _ _ _ Hm) as Hrec.
  destruct (reachable_bound _ _ _ _ _ Hm) as [Hb Hnd].
  rewrite Hrec. split; [|exact Hnd].
  rewrite <- (length_map url), Hrec. exact Hb.
Qed.

Lemma X8_records_mirror_visited_witness :
  exists d,
    Send (ScrapedData d) true
    ∈ trace (default (mkRun [] None Returned)
               (session (Sample.site Sample.two_links) 10 (JStr Sample.home)))
    /\ List.length d <= MAX_PAGES /\ NoDup (map url d).
Proof.
  eexists. split.
  - apply list_elem_of_In. vm_compute. do 14 right. left. reflexivity.
  - refine (proj2 (X8_records_mirror_visited (Sample.site Sample.two_links)
                     (JStr Sample.home)) 10 _ _ true eq_refl _).
    apply list_elem_of_In. vm_compute. do 14 right. left. reflexivity.
Defined.

(** *** How the loop and the session end *)

Lemma split_at_unique {A} (P : A -> bool) (l1 : list A) (x : A)
    (l2 pre : list A) (a : A) (post : list A) :
  Forall (fun b => P b = false) l1 ->
  Forall (fun b => P b = false) l2 ->
  P a = true ->
  l1 ++ x :: l2 = pre ++ a :: post ->
  pre = l1 /\ a = x /\ post = l2.
Proof.
  intros H1 H2 Pa. revert pre.
  induction H1 as [|y l1 Hy _ IH]; intros pre Heq.
  - destruct pre as [|p pre]; simpl in Heq; inversion Heq; subst; [auto|].
    apply Forall_app in H2 as [_ H2]. inversion H2; subst. congruence.
  - destruct pre as [|p pre]; simpl in Heq; inversion Heq; subst.
    + congruence.
    + destruct (IH pre H1) as (-> & -> & ->). auto.
Qed.

Lemma no_split_at {A} (P : A -> bool) (l pre : list A) (a : A)
    (post : list A) :
  Forall (fun b => P b = false) l -> P a = true -> l <> pre ++ a :: post.
Proof.
  intros Hl Pa ->. apply Forall_app in Hl as [_ Hl].
  inversion Hl; subst. congruence.
Qed.

(** The ways a loop ends: on its test, with nothing that stops it in its
    trace; by [break], right after a [visiting] event that could not be
    sent; or by an exception, right after a page whose content could not be
    read. *)
Lemma loop_ending (env : Env) (baseUrl : string) (fuel n : nat)
    (st : state) (res : completion * state * list action) :
  loop env baseUrl fuel n st = Some res ->
  exists body,
    Forall (fun a => stops_loop a = false) body
    /\ ((fst (fst res) = Normal /\ snd res = body)
        \/ (fst (fst res) = Break
            /\ exists u, snd res = body ++ [Send (Visiting u) false])
        \/ (fst (fst res) = Throw
            /\ exists u, snd res = body ++ [Content u None])).
Proof.
  revert fuel n st res.
  apply (loop_result_ind env baseUrl
           (fun n st res =>
              exists body,
                Forall (fun a => stops_loop a = false) body
                /\ ((fst (fst res) = Normal /\ snd res = body)
                    \/ (fst (fst res) = Break
                        /\ exists u, snd res = body ++ [Send (Visiting u) false])
                    \/ (fst (fst res) = Throw
                        /\ exists u, snd res = body ++ [Content u None]))));
    simpl.
  - intros. exists []. split; [constructor|]. auto.
  - intros. exists []. split; [constructor|]. auto.
  - intros n u rest visited scraped c st' acts _ Hit Hc.
    pose proof (iteration_cases env baseUrl n u
                  (mkState rest visited scraped)) as Hcase.
    rewrite Hit in Hcase. inversion Hcase; subst; try congruence.
    + exists [Shift u false]. split; [repeat constructor|].
      right. left. split; [reflexivity|]. now exists u.
    + exists [Shift u false; Send (Visiting u) true; Goto u true].
      split; [repeat constructor|].
      right. right. split; [reflexivity|]. now exists u.
  - intros n u rest visited scraped st' acts c st'' acts' _ Hit
           (body & Hbody & Hend).
    assert (Hacts : Forall (fun a => stops_loop a = false) acts).
    { pose proof (iteration_cases env baseUrl n u
                    (mkState rest visited scraped)) as Hcase.
      rewrite Hit in Hcase. inversion Hcase; subst; repeat constructor. }
    exists (acts ++ body). split; [apply Forall_app; now split|].
    destruct Hend as [[-> ->]|[[-> [v ->]]|[-> [v ->]]]].
    + left. auto.
    + right. left. split; [reflexivity|]. exists v. now rewrite app_assoc.
    + right. right. split; [reflexivity|]. exists v. now rewrite app_assoc.
Qed.

Lemma loop_normal_exit (env : Env) (baseUrl : string) (fuel n : nat)
    (st : state) (res : completion * state * list action) :
  loop env baseUrl fuel n st = Some res ->
  JSSet.size (visitedUrls st) <= MAX_PAGES ->
  fst (fst res) = Normal ->
  urlQueue (snd (fst res)) = []
  \/ JSSet.size (visitedUrls (snd (fst res))) = MAX_PAGES.
Proof.
  revert fuel n st res.
  apply (loop_result_ind env baseUrl
           (fun n st res =>
              JSSet.size (visitedUrls st) <= MAX_PAGES ->
              fst (fst res) = Normal ->
              urlQueue (snd (fst res)) = []
              \/ JSSet.size (visitedUrls (snd (fst res))) = MAX_PAGES));
    simpl.
  - intros n st Hq _ _. now left.
  - intros n st Hge Hle _. right. lia.
  - intros; congruence.
  - intros n u rest visited scraped st' acts c st'' acts' Hlt Hit IH _ Hc.
    apply IH; [|exact Hc].
    apply iteration_visited in Hit as (Hsz & _). simpl in Hsz. lia.
Qed.

(** X9.  Once the loop has stopped on a [visiting] event that could not be
    sent, or on a page whose content could not be read, the session shifts,
    announces, navigates and reads no more: what follows in the trace is the
    closing of the browser and the terminal message only. *)
Theorem X9_nothing_after_loop_failure (env : Env) (fuel : nat) (url : json)
    (r : run) (pre : list action) (a : action) (post : list action) :
  session env fuel url = Some r ->
  trace r = pre ++ a :: post ->
  stops_loop a = true ->
  Forall (fun b => loop_action b = false) post.
Proof.
  intros Hs Heq Ha. apply session_shapes in Hs.
  assert (Htail_ok : forall tail,
             Forall (fun b => loop_action b = false) tail ->
             Forall (fun b => stops_loop b = false) tail).
  { intros tail Ht. eapply Forall_impl; [exact Ht|].
    intros [| | |[] []| |? []|]; simpl; congruence. }
  destruct (final r) as [st|] eqn:Hf.
  - destruct (session_loop env url r st Hs Hf)
      as (b & fuel' & c & acts & tail & _ & Hloop & Htrace & Htail).
    destruct (loop_ending _ _ _ _ _ _ Hloop) as (body & Hbody & Hend).
    simpl in Hend. rewrite Htrace in Heq.
    destruct Hend as [[_ ->]|[[_ [v ->]]|[_ [v ->]]]].
    + exfalso.
      eapply (no_split_at stops_loop); [| |exact Heq]; [|exact Ha].
      repeat (apply Forall_cons; split; [reflexivity|]).
      apply Forall_app. split; [exact Hbody | now apply Htail_ok].
    + rewrite <- !app_assoc in Heq. simpl in Heq.
      change (Launch true :: NewPage true
              :: body ++ Send (Visiting v) false :: tail)
        with ((Launch true :: NewPage true :: body)
              ++ Send (Visiting v) false :: tail) in Heq.
      apply (split_at_unique stops_loop) in Heq as (_ & _ & ->);
        [exact Htail| |now apply Htail_ok|exact Ha].
      repeat (apply Forall_cons; split; [reflexivity|]). exact Hbody.
    + rewrite <- !app_assoc in Heq. simpl in Heq.
      change (Launch true :: NewPage true :: body ++ Content v None :: tail)
        with ((Launch true :: NewPage true :: body)
              ++ Content v None :: tail) in Heq.
      apply (split_at_unique stops_loop) in Heq as (_ & _ & ->);
        [exact Htail| |now apply Htail_ok|exact Ha].
      repeat (apply Forall_cons; split; [reflexivity|]). exact Hbody.
  - exfalso.
    eapply (no_split_at stops_loop); [| |exact Heq]; [|exact Ha].
    apply Htail_ok. exact (session_without_loop env url r Hs Hf).
Qed.

Lemma X9_nothing_after_loop_failure_witness :
  exists pre post,
    trace (default (mkRun [] None Returned)
             (session Sample.breaking 10 (JStr Sample.home)))
    = pre ++ Content (JStr Sample.page2) None :: post
    /\ Forall (fun b => loop_action b = false) post.
Proof.
  set (pre := [Launch true; NewPage true; Shift (JStr Sample.home) false;
               Send (Visiting (JStr Sample.home)) true;
               Goto (JStr Sample.home) true;
               Content (JStr Sample.home) (Some Sample.two_links);
               Shift (JStr Sample.page2) false;
               Send (Visiting (JStr Sample.page2)) true;
               Goto (JStr Sample.page2) true]).
  set (post := [Send (Error "An unexpected error occurred.") true;
                Close true]).
  exists pre, post. split; [reflexivity|].
  exact (X9_nothing_after_loop_failure Sample.breaking 10 (JStr Sample.home)
           (default (mkRun [] None Returned)
              (session Sample.breaking 10 (JStr Sample.home)))
           pre (Content (JStr Sample.page2) None) post
           eq_refl eq_refl eq_refl).
Defined.

(** X10.  A session leaves URLs in the queue only for a reason: when it
    ends with a queue that is not empty, the visited set has reached
    [MAX_PAGES], or a [visiting] event could not be sent, or the content of
    a page could not be read. *)
Theorem X10_queue_left_for_a_reason (env : Env) (fuel : nat) (url : json)
    (r : run) (st : state) :
  session env fuel url = Some r ->
  final r = Some st ->
  urlQueue st <> [] ->
  JSSet.size (visitedUrls st) = MAX_PAGES
  \/ (exists u, Send (Visiting u) false ∈ trace r)
  \/ (exists u, Content u None ∈ trace r).
Proof.
  intros Hs Hf Hq. apply session_shapes in Hs.
  destruct (session_loop env url r st Hs Hf)
    as (b & fuel' & c & acts & tail & _ & Hloop & Htrace & _).
  destruct (loop_ending _ _ _ _ _ _ Hloop) as (body & _ & Hend).
  simpl in Hend. rewrite Htrace.
  destruct Hend as [[-> _]|[[_ [v ->]]|[_ [v ->]]]].
  - left.
    destruct (loop_normal_exit _ _ _ _ _ _ Hloop) as [H|H];
      [unfold MAX_PAGES; simpl; lia | reflexivity | | exact H].
    simpl in H. congruence.
  - right. left. exists v.
    repeat (rewrite elem_of_app || rewrite elem_of_cons). auto 10.
  - right. right. exists v.
    repeat (rewrite elem_of_app || rewrite elem_of_cons). auto 10.
Qed.

Lemma X10_queue_left_for_a_reason_witness :
  exists r st,
    session Sample.breaking 10 (JStr Sample.home) = Some r
    /\ final r = Some st
    /\ urlQueue st = [JStr Sample.page3]
    /\ (JSSet.size (visitedUrls st) = MAX_PAGES
        \/ (exists u, Send (Visiting u) false ∈ trace r)
        \/ (exists u, Content u None ∈ trace r)).
Proof.
  eexists. eexists. split; [reflexivity|]. split; [reflexivity|].
  split; [reflexivity|].
  eapply (X10_queue_left_for_a_reason Sample.breaking 10 (JStr Sample.home));
    [reflexivity | reflexivity | discriminate].
Defined.

(** *** The terminal message *)

Lemma filter_none {A} (P : A -> bool) (l : list A) :
  Forall (fun a => P a = false) l -> List.filter P l = [].
Proof.
  induction 1 as [|a l Ha _ IH]; [reflexivity|]. simpl. now rewrite Ha.
Qed.

Lemma loop_actions_no_reply (l : list action) :
  Forall (fun a => loop_action a = true) l ->
  Forall (fun a => is_reply a = false) l.
Proof.
  intros H. eapply Forall_impl; [exact H|].
  intros [| | |[]| | |]; simpl; congruence.
Qed.

Lemma loop_clean (env : Env) (baseUrl : string) (fuel n : nat) (st : state)
    (c : completion) (st' : state) (acts : list action) :
  loop env baseUrl fuel n st = Some (c, st', acts) ->
  (c <> Throw -> Forall (fun a => renderer_failure a = false) acts)
  /\ (c = Throw -> Exists (fun a => renderer_failure a = true) acts).
Proof.
  intros Hloop.
  pose proof (loop_actions _ _ _ _ _ _ Hloop) as Hla. simpl in Hla.
  destruct (loop_ending _ _ _ _ _ _ Hloop) as (body & Hbody & Hend).
  simpl in Hend.
  assert (Hclean : forall l,
             Forall (fun a => stops_loop a = false) l ->
             Forall (fun a => loop_action a = true) l ->
             Forall (fun a => renderer_failure a = false) l).
  { intros l H1 H2. rewrite Forall_forall in *. intros a Ha.
    specialize (H1 a Ha). specialize (H2 a Ha).
    destruct a as [[]|[]| |[] []| |? []|[]]; simpl in *; congruence. }
  destruct Hend as [[-> ->]|[[-> [v ->]]|[-> [v ->]]]].
  - split; [intros _; now apply Hclean | discriminate].
  - split; [intros _ | discriminate].
    apply Forall_app in Hla as [Hla _].
    apply Forall_app. split; [now apply Hclean | repeat constructor].
  - split; [congruence | intros _].
    apply Exists_app. right. now constructor.
Qed.

(** X11.  A session sends one terminal message, and only one: the result
    with the final list when no call on the browser or its page failed
    (navigation apart) and the seed has an origin, and the error message
    otherwise.  A navigation that fails or a [visiting] event that cannot
    be sent never turns the result into an error. *)
Theorem X11_one_terminal_message (env : Env) (fuel : nat) (url : json)
    (r : run) :
  session env fuel url = Some r ->
  exists m,
    List.filter is_reply (trace r) = [Send m (reply_sent env)]
    /\ ((exists st,
           final r = Some st /\ m = ScrapedData (scrapedData st)
           /\ URL_origin env url <> None
           /\ Forall (fun a => renderer_failure a = false) (trace r))
        \/ (m = Error "An unexpected error occurred."
            /\ (URL_origin env url = None
                \/ Exists (fun a => renderer_failure a = true) (trace r)))).
Proof.
  intros Hs. apply session_shapes in Hs.
  inversion Hs; subst; unfold catch_block; cbn [trace final];
    try match goal with
        | H : loop _ _ _ _ _ = Some _ |- _ =>
            pose proof (loop_actions _ _ _ _ _ _ H) as Hla;
            apply loop_actions_no_reply, filter_none in Hla;
            destruct (loop_clean _ _ _ _ _ _ _ _ H) as [Hclean Hdirty];
            simpl in Hla
        end.
  - eexists. split; [reflexivity|]. right. split; [reflexivity|].
    right. now constructor.
  - eexists. split; [reflexivity|]. right. split; [reflexivity|].
    right. apply Exists_cons. right. now constructor.
  - eexists. split; [reflexivity|]. right. split; [reflexivity|]. now left.
  - eexists. split.
    + cbn [app List.filter is_reply]. rewrite List.filter_app, Hla.
      reflexivity.
    + right. split; [reflexivity|]. right.
      do 2 (apply Exists_cons; right).
      apply Exists_app. left. now apply Hdirty.
  - eexists. split.
    + cbn [app List.filter is_reply]. rewrite List.filter_app, Hla.
      reflexivity.
    + left. eexists. split; [reflexivity|]. split; [reflexivity|].
      split; [congruence|].
      do 2 (apply Forall_cons; split; [reflexivity|]).
      apply Forall_app. split; [now apply Hclean | repeat constructor].
  - eexists. split.
    + cbn [app List.filter is_reply]. rewrite List.filter_app, Hla.
      reflexivity.
    + right. split; [reflexivity|]. right.
      do 2 (apply Exists_cons; right).
      apply Exists_app. right. now constructor.
Qed.

Lemma X11_one_terminal_message_witness :
  exists m,
    List.filter is_reply
      (trace (default (mkRun [] None Returned)
                (session Sample.breaking 10 (JStr Sample.home))))
    = [Send m true]
    /\ m = Error "An unexpected error occurred.".
Proof.
  destruct (X11_one_terminal_message Sample.breaking 10 (JStr Sample.home)
              (default (mkRun [] None Returned)
                 (session Sample.breaking 10 (JStr Sample.home))) eq_refl)
    as (m & Hm & Hcase).
  exists m. split; [exact Hm|].
  vm_compute in Hm. inversion Hm. reflexivity.
Defined.

(** *** The order of the queue *)

Lemma shifted_inert (acts tail : list action) :
  Forall (fun a => loop_action a = false) tail ->
  shifted (acts ++ tail) = shifted acts.
Proof.
  intros Ht. unfold shifted. rewrite omap_app.
  rewrite <- app_nil_r. f_equal.
  induction Ht as [|a l Ha _ IH]; [reflexivity|].
  cbn [omap list_omap]. destruct a; simpl in *; try discriminate; exact IH.
Qed.

Lemma discovered_inert (env : Env) (baseUrl : string) (acts tail : list action) :
  Forall (fun a => loop_action a = false) tail ->
  forall visited,
    discovered env baseUrl visited (acts ++ tail)
    = discovered env baseUrl visited acts.
Proof.
  intros Ht. induction acts as [|a acts IH]; intros visited.
  - simpl. induction Ht as [|a l Ha _ IHt]; [reflexivity|].
    destruct a; simpl in *; try discriminate; exact IHt.
  - destruct a as [| | | | |u [doc|]|]; simpl; rewrite ?IH; reflexivity.
Qed.

Lemma loop_fifo (env : Env) (baseUrl : string) (fuel n : nat) (st : state)
    (res : completion * state * list action) :
  loop env baseUrl fuel n st = Some res ->
  shifted (snd res) ++ urlQueue (snd (fst res))
  = urlQueue st ++ discovered env baseUrl (visitedUrls st) (snd res).
Proof.
  revert fuel n st res.
  apply (loop_result_ind env baseUrl
           (fun n st res =>
              shifted (snd res) ++ urlQueue (snd (fst res))
              = urlQueue st
                ++ discovered env baseUrl (visitedUrls st) (snd res)));
    simpl.
  - intros. now rewrite app_nil_r.
  - intros. now rewrite app_nil_r.
  - intros n u rest visited scraped c st' acts _ Hit Hc.
    pose proof (iteration_cases env baseUrl n u
                  (mkState rest visited scraped)) as Hcase.
    rewrite Hit in Hcase.
    inversion Hcase; subst; try congruence; simpl; now rewrite app_nil_r.
  - intros n u rest visited scraped st' acts c st'' acts' _ Hit IH.
    pose proof (iteration_cases env baseUrl n u
                  (mkState rest visited scraped)) as Hcase.
    rewrite Hit in Hcase.
    assert (Hsh : shifted (acts ++ acts') = u :: shifted acts').
    { unfold shifted. rewrite omap_app.
      inversion Hcase; subst; reflexivity. }
    rewrite Hsh. cbn [app]. rewrite IH.
    inversion Hcase; subst;
      cbn [app discovered urlQueue visitedUrls]; try reflexivity.
    rewrite push_links_app, <- app_assoc. reflexivity.
Qed.

(** X12.  The queue is first in, first out, and nothing is dropped from it:
    the URLs a session shifted, in order, followed by those left in the
    queue when it ended, are the seed followed by the links accepted on each
    page read, page after page. *)
Theorem X12_queue_is_fifo (env : Env) (fuel : nat) (url : json) (r : run)
    (st : state) (baseUrl : string) :
  session env fuel url = Some r ->
  final r = Some st ->
  URL_origin env url = Some baseUrl ->
  shifted (trace r) ++ urlQueue st
  = url :: discovered env baseUrl JSSet.empty (trace r).
Proof.
  intros Hs Hf Ho. apply session_shapes in Hs.
  destruct (session_loop env url r st Hs Hf)
    as (b & fuel' & c & acts & tail & Ho' & Hloop & Htrace & Htail).
  assert (b = baseUrl) as -> by congruence.
  apply loop_fifo in Hloop. simpl in Hloop.
  rewrite Htrace.
  change ([Launch true; NewPage true] ++ acts ++ tail)
    with (Launch true :: NewPage true :: acts ++ tail).
  change (shifted (Launch true :: NewPage true :: acts ++ tail))
    with (shifted (acts ++ tail)).
  change (discovered env baseUrl JSSet.empty
            (Launch true :: NewPage true :: acts ++ tail))
    with (discovered env baseUrl JSSet.empty (acts ++ tail)).
  rewrite shifted_inert, discovered_inert by exact Htail.
  exact Hloop.
Qed.

Lemma X12_queue_is_fifo_witness :
  shifted (trace (default (mkRun [] None Returned)
                    (session Sample.breaking 10 (JStr Sample.home))))
  ++ [JStr Sample.page3]
  = [JStr Sample.home; JStr Sample.page2; JStr Sample.page3].
Proof.
  exact (X12_queue_is_fifo Sample.breaking 10 (JStr Sample.home)
           (default (mkRun [] None Returned)
              (session Sample.breaking 10 (JStr Sample.home)))
           (mkState [JStr Sample.page3] [JStr Sample.home]
              [mkPage (JStr Sample.home) (extract Sample.two_links)])
           Sample.origin eq_refl eq_refl eq_refl).
Defined.

(** *** Pages read and pages recorded *)

Lemma records_inert (acts tail : list action) :
  Forall (fun a => loop_action a = false) tail ->
  records (acts ++ tail) = records acts.
Proof.
  intros Ht. unfold records. rewrite omap_app.
  rewrite <- app_nil_r. f_equal.
  induction Ht as [|a l Ha _ IH]; [reflexivity|].
  cbn [omap list_omap]. destruct a; simpl in *; try discriminate; exact IH.
Qed.

(** X17.  The result list is the log of the pages read: when a session
    ends, its list holds one record for each page whose content was read,
    in the order they were read, with the sections extracted from that
    content, and nothing else; the visited set holds the URLs of those
    pages, in that order. *)
Theorem X17_results_are_pages_read (env : Env) (fuel : nat) (seed : json)
    (r : run) (st : state) :
  session env fuel seed = Some r ->
  final r = Some st ->
  scrapedData st = records (trace r)
  /\ visitedUrls st = map url (records (trace r)).
Proof.
  intros Hs Hf. apply session_shapes in Hs.
  destruct (session_loop env seed r st Hs Hf)
    as (b & fuel' & c & acts & tail & _ & Hloop & Htrace & Htail).
  assert (Hrec : scrapedData st = records (trace r)).
  { rewrite Htrace.
    change (records ([Launch true; NewPage true] ++ acts ++ tail))
      with (records (acts ++ tail)).
    rewrite records_inert by exact Htail.
    apply loop_scraped in Hloop. exact Hloop. }
  split; [exact Hrec|].
  destruct (session_final_reachable env seed r st Hs Hf) as (b' & m & Hm).
  rewrite <- Hrec. symmetry. exact (reachable_records _ _ _ _ _ Hm).
Qed.

Lemma X17_results_are_pages_read_witness :
  exists r st,
    session (Sample.site Sample.two_links) 10 (JStr Sample.home) = Some r
    /\ final r = Some st
    /\ scrapedData st = records (trace r)
    /\ visitedUrls st = [JStr Sample.home; JStr Sample.page3].
Proof.
  eexists. eexists. split; [reflexivity|]. split; [reflexivity|].
  destruct (X17_results_are_pages_read (Sample.site Sample.two_links) 10
              (JStr Sample.home) _ _ eq_refl eq_refl) as (H1 & H2).
  split; [exact H1 | exact H2].
Defined.

(** *** The request guard, continued *)

Lemma session_launches (env : Env) (url : json) (r : run) :
  session_shape env url r -> exists ok, Launch ok ∈ trace r.
Proof.
  intros Hs.
  inversion Hs; subst; cbn [trace]; eexists; apply elem_of_cons; now left.
Qed.

(** X13.  The handler launches a browser exactly for the messages that
    parse to a value other than [null] whose [url] property is truthy; for
    such a message it runs the session on that value.  A message that is not
    an object (a number, a string, a boolean, an array) never launches
    one. *)
Theorem X13_guard_admits (env : Env) (fuel : nat) (message : parsed)
    (r : run) :
  on_message env fuel message = Some r ->
  ((exists ok, Launch ok ∈ trace r)
   <-> exists msgData v,
         message = Parsed msgData
         /\ destructure_url msgData = Some (Some v)
         /\ truthy (Some v) = true)
  /\ (forall msgData,
        message = Parsed msgData ->
        (forall props, msgData <> JObj props) ->
        forall ok, Launch ok ∉ trace r).
Proof.
  intros Hm.
  assert (Hno : forall text ok, Launch ok ∉ trace (reject env text)).
  { intros text ok Hin. simpl in Hin.
    repeat (rewrite elem_of_cons in Hin || rewrite elem_of_nil in Hin).
    intuition discriminate. }
  split.
  - destruct message as [|msgData]; simpl in Hm.
    + inversion Hm; subst. split.
      * intros [ok Hin]. now apply Hno in Hin.
      * intros (m & v & Heq & _). discriminate.
    + destruct (destructure_url msgData) as [[v|]|] eqn:Hd.
      * destruct (truthy (Some v)) eqn:Ht.
        -- split; [intros _; exists msgData, v; auto|].
           intros _. eapply session_launches, session_shapes; eauto.
        -- inversion Hm; subst. split.
           ++ intros [ok Hin]. now apply Hno in Hin.
           ++ intros (m & w & Heq & Hd' & Ht'). inversion Heq; subst.
              congruence.
      * simpl in Hm. inversion Hm; subst. split.
        -- intros [ok Hin]. now apply Hno in Hin.
        -- intros (m & w & Heq & Hd' & _). inversion Heq; subst. congruence.
      * inversion Hm; subst. split.
        -- intros [ok Hin]. now apply elem_of_nil in Hin.
        -- intros (m & w & Heq & Hd' & _). inversion Heq; subst. congruence.
  - intros msgData -> Hobj ok. simpl in Hm.
    destruct msgData as [|b|x|s|items|props]; simpl in Hm;
      try (inversion Hm; subst; apply Hno).
    + inversion Hm; subst. apply not_elem_of_nil.
    + now destruct (Hobj props).
Qed.

Lemma X13_guard_admits_witness :
  exists r,
    on_message (Sample.site Sample.two_links) 10
      (Parsed (JObj [("url", JStr Sample.home)])) = Some r
    /\ (exists ok, Launch ok ∈ trace r)
    /\ Launch true
       ∉ trace (default (mkRun [] None Returned)
                  (on_message (Sample.site Sample.two_links) 10
                     (Parsed (JArr [JStr Sample.home])))).
Proof.
  eexists. split; [reflexivity|]. split.
  - apply (proj1 (X13_guard_admits (Sample.site Sample.two_links) 10
                    (Parsed (JObj [("url", JStr Sample.home)])) _ eq_refl)).
    exists (JObj [("url", JStr Sample.home)]), (JStr Sample.home).
    repeat split; reflexivity.
  - apply (proj2 (X13_guard_admits (Sample.site Sample.two_links) 10
                    (Parsed (JArr [JStr Sample.home])) _ eq_refl)
             (JArr [JStr Sample.home]) eq_refl).
    intros props. discriminate.
Defined.

(** ** The keepalive *)

Lemma run_terminated (evs : list Keepalive.event) :
  Keepalive.run evs Keepalive.Terminated = Keepalive.Terminated.
Proof. induction evs as [|[|ok] evs IH]; simpl; auto. Qed.

Lemma unanswered_cons (e : Keepalive.event) (evs : list Keepalive.event) :
  Keepalive.unanswered (e :: evs)
  <-> (exists a b post, e = Keepalive.Tick a /\ evs = Keepalive.Tick b :: post)
      \/ Keepalive.unanswered evs.
Proof.
  unfold Keepalive.unanswered. split.
  - intros (pre & a & b & post & Heq). destruct pre as [|p pre];
      simpl in Heq; inversion Heq; subst; [left|right]; eauto 10.
  - intros [(a & b & post & -> & ->)|(pre & a & b & post & ->)].
    + now exists [], a, b, post.
    + now exists (e :: pre), a, b, post.
Qed.

Lemma run_open (evs : list Keepalive.event) (alive : bool) :
  Keepalive.run evs (Keepalive.Open alive) = Keepalive.Terminated
  <-> (alive = false /\ exists ok rest, evs = Keepalive.Tick ok :: rest)
      \/ Keepalive.unanswered evs
      \/ Keepalive.Tick false ∈ evs.
Proof.
  revert alive. induction evs as [|e evs IH]; intros alive.
  - simpl. split; [discriminate|].
    intros [[_ (ok & rest & H)]|[(pre & a & b & post & H)|H]].
    + discriminate.
    + now destruct pre.
    + now apply elem_of_nil in H.
  - rewrite unanswered_cons, elem_of_cons. destruct e as [|ok]; simpl.
    + change (fold_left Keepalive.step evs (Keepalive.Open true))
        with (Keepalive.run evs (Keepalive.Open true)).
      rewrite IH. split.
      * intros [[H _]|[H|H]]; [discriminate| |]; auto.
      * intros [[_ (ok & rest & H)]|[[(a & b & post & H & _)|H]|[H|H]]];
          try discriminate; auto.
    + destruct alive.
      * destruct ok.
        -- change (fold_left Keepalive.step evs (Keepalive.Open false))
             with (Keepalive.run evs (Keepalive.Open false)).
           rewrite IH. split.
           ++ intros [[_ (ok & rest & ->)]|[H|H]]; [|auto|auto].
              right. left. left. eauto.
           ++ intros [[H _]|[[(a & b & post & _ & ->)|H]|[H|H]]];
                try discriminate; eauto 10.
        -- change (fold_left Keepalive.step evs Keepalive.Terminated)
             with (Keepalive.run evs Keepalive.Terminated).
           rewrite run_terminated. split; auto.
      * change (fold_left Keepalive.step evs Keepalive.Terminated)
          with (Keepalive.run evs Keepalive.Terminated).
        rewrite run_terminated. split; [|auto]. intros _. left. eauto.
Qed.

(** X14.  The keepalive terminates a connection in two cases and no other:
    the interval fired twice with no pong in between, or a ping threw.  So a
    client that stops answering is cut at the second firing after its last
    pong, and a client that answers every ping is never cut. *)
Theorem X14_keepalive_terminates_iff (evs : list Keepalive.event) :
  Keepalive.run evs Keepalive.connected = Keepalive.Terminated
  <-> Keepalive.unanswered evs \/ Keepalive.Tick false ∈ evs.
Proof.
  unfold Keepalive.connected. rewrite run_open. split.
  - intros [[H _]|H]; [discriminate|exact H].
  - auto.
Qed.

Lemma X14_keepalive_terminates_iff_witness :
  Keepalive.run
    [Keepalive.Tick true; Keepalive.Pong; Keepalive.Tick true;
     Keepalive.Tick true; Keepalive.Pong]
    Keepalive.connected
  = Keepalive.Terminated.
Proof.
  apply (proj2 (X14_keepalive_terminates_iff _)). left.
  now exists [Keepalive.Tick true; Keepalive.Pong], true, true,
             [Keepalive.Pong].
Defined.

(** ** The handler of [part_001] against that of [server.js] *)

Lemma part001_iteration (env : Env) (baseUrl : string) (n : nat) (u : json)
    (st : state) :
  visiting_sent env n = true ->
  Part001.iteration env baseUrl n u st = iteration env baseUrl n u st.
Proof.
  intros Hsent. unfold Part001.iteration, iteration. now rewrite Hsent.
Qed.

Lemma part001_loop (env : Env) (baseUrl : string) (fuel : nat) :
  (forall n, visiting_sent env n = true) ->
  forall n st,
    Part001.loop env baseUrl fuel n st = loop env baseUrl fuel n st.
Proof.
  intros Hsent. induction fuel as [|fuel IH]; intros n st; simpl.
  - reflexivity.
  - destruct (urlQueue st) as [|u rest]; [reflexivity|].
    destruct (Nat.ltb _ _); [|reflexivity].
    rewrite part001_iteration by apply Hsent.
    destruct (iteration _ _ _ _ _) as [[c st'] acts].
    destruct c; try reflexivity. now rewrite IH.
Qed.

Lemma part001_session (env : Env) (resent : bool) (fuel : nat) (url : json) :
  (forall n, visiting_sent env n = true) ->
  reply_sent env = true ->
  Part001.session env resent fuel url = session env fuel url.
Proof.
  intros Hsent Hreply. unfold Part001.session, session.
  unfold Part001.catch_block, Part001.catch_ending, catch_block, catch_ending.
  rewrite Hreply.
  destruct (launch_ok env); simpl; [|reflexivity].
  destruct (newPage_ok env); simpl; [|reflexivity].
  destruct (URL_origin env url) as [baseUrl|]; [|reflexivity].
  rewrite part001_loop by exact Hsent.
  destruct (loop _ _ _ _ _) as [[[[] st] acts]|]; reflexivity.
Qed.

Lemma agree_link_step (e1 e2 : Env) (baseUrl : string) (visited : JSSet.t)
    (queue : list json) (e : element) :
  same_answers e1 e2 ->
  link_step e1 baseUrl visited queue e = link_step e2 baseUrl visited queue e.
Proof.
  intros (_ & _ & _ & Hhref & _). unfold link_step.
  destruct (href e) as [link|]; [|reflexivity]. now rewrite Hhref.
Qed.

Lemma agree_push_links (e1 e2 : Env) (baseUrl : string) (visited : JSSet.t)
    (doc : Document) (queue : list json) :
  same_answers e1 e2 ->
  push_links e1 baseUrl visited queue doc
  = push_links e2 baseUrl visited queue doc.
Proof.
  intros Hsame. unfold push_links. revert queue.
  induction (List.filter matches_anchor doc) as [|e l IH]; intros queue;
    [reflexivity|].
  simpl. now rewrite (agree_link_step e1 e2) by exact Hsame.
Qed.

Lemma agree_iteration (e1 e2 : Env) (baseUrl : string) (n : nat) (u : json)
    (st : state) :
  same_answers e1 e2 ->
  iteration e1 baseUrl n u st = iteration e2 baseUrl n u st.
Proof.
  intros Hsame. pose proof Hsame as (_ & _ & _ & _ & Hs & Hg & Hp & _).
  unfold iteration. rewrite Hs, Hg, Hp.
  destruct (JSSet.has _ _); [reflexivity|].
  destruct (visiting_sent e2 n); [|reflexivity].
  destruct (goto_ok e2 n u); [|reflexivity].
  destruct (page_content e2 n u) as [doc|]; [|reflexivity].
  cbn [negb]. now rewrite (agree_push_links e1 e2) by exact Hsame.
Qed.

Lemma agree_loop (e1 e2 : Env) (baseUrl : string) (fuel : nat) :
  same_answers e1 e2 ->
  forall n st, loop e1 baseUrl fuel n st = loop e2 baseUrl fuel n st.
Proof.
  intros Hsame. induction fuel as [|fuel IH]; intros n st; simpl.
  - reflexivity.
  - destruct (urlQueue st) as [|u rest]; [reflexivity|].
    destruct (Nat.ltb _ _); [|reflexivity].
    rewrite (agree_iteration e1 e2) by exact Hsame.
    destruct (iteration _ _ _ _ _) as [[c st'] acts].
    destruct c; try reflexivity. now rewrite IH.
Qed.

Lemma agree_session (e1 e2 : Env) (fuel : nat) (url : json) :
  same_answers e1 e2 ->
  session e1 fuel url = session e2 fuel url.
Proof.
  intros Hsame.
  pose proof Hsame as (Hl & Hp & Ho & _ & _ & _ & _ & Hc & Hcc & Hr).
  unfold session, catch_block, catch_ending.
  rewrite Hl, Hp, Ho, Hc, Hcc, Hr.
  destruct (launch_ok e2); simpl; [|reflexivity].
  destruct (newPage_ok e2); simpl; [|reflexivity].
  destruct (URL_origin e2 url) as [baseUrl|]; [|reflexivity].
  now rewrite (agree_loop e1 e2) by exact Hsame.
Qed.

Lemma agree_on_message (e1 e2 : Env) (fuel : nat) (message : parsed) :
  same_answers e1 e2 ->
  on_message e1 fuel message = on_message e2 fuel message.
Proof.
  intros Hsame.
  pose proof Hsame as (_ & _ & _ & _ & _ & _ & _ & _ & _ & Hr).
  unfold on_message, reject. rewrite Hr.
  destruct message as [|msgData]; [reflexivity|].
  destruct (destructure_url msgData) as [[v|]|]; try reflexivity.
  destruct (truthy (Some v)); [|reflexivity].
  now apply agree_session.
Qed.

Lemma part001_on_message (env : Env) (resent : bool) (fuel : nat)
    (message : parsed) :
  (forall n, visiting_sent env n = true) ->
  reply_sent env = true ->
  message <> ParseThrows ->
  Part001.on_message env resent fuel message = on_message env fuel message.
Proof.
  intros Hsent Hreply Hne. destruct message as [|msgData]; [congruence|].
  simpl. destruct (destructure_url msgData) as [[v|]|]; try reflexivity.
  destruct (truthy (Some v)); [|reflexivity].
  now apply part001_session.
Qed.

(** X15.  When puppeteer and [URL] give the two handlers the same answers
    and the socket takes every message, the handler of [part_001] and the
    handler of [server.js] send the same messages in the same order, leave
    the same state and end the same way on every message that parses.  (The
    options they pass to [launch] and [goto] differ and are not compared.)
    On a message that does not parse, [part_001] ends on the uncaught
    exception and sends nothing, where [server.js] answers. *)
Theorem X15_part001_agrees (e1 e2 : Env) (resent : bool) (fuel : nat)
    (message : parsed) :
  same_answers e1 e2 ->
  (forall n, visiting_sent e2 n = true) ->
  reply_sent e2 = true ->
  (message <> ParseThrows ->
   option_map client_view (Part001.on_message e1 resent fuel message)
   = option_map client_view (on_message e2 fuel message))
  /\ (message = ParseThrows ->
      Part001.on_message e1 resent fuel message
      = Some (mkRun [] None Uncaught)
      /\ on_message e2 fuel message
         = Some (mkRun [Send (Error "Invalid message format") true] None
                   Returned)).
Proof.
  intros Hsame Hsent Hreply.
  pose proof Hsame as (_ & _ & _ & _ & Hs & _ & _ & _ & _ & Hr).
  split.
  - intros Hne.
    rewrite part001_on_message; [| |congruence|exact Hne].
    + now rewrite (agree_on_message e1 e2) by exact Hsame.
    + intros n. rewrite Hs. apply Hsent.
  - intros ->. simpl. unfold reject. now rewrite Hreply.
Qed.

Lemma X15_part001_agrees_witness :
  same_answers Sample.breaking Sample.breaking
  /\ option_map client_view
       (Part001.on_message Sample.breaking true 10
          (Parsed (JObj [("url", JStr Sample.home)])))
     = Some ([(Visiting (JStr Sample.home), true);
              (Visiting (JStr Sample.page2), true);
              (Error "An unexpected error occurred.", true)],
             Some (mkState [JStr Sample.page3] [JStr Sample.home]
                     [mkPage (JStr Sample.home) (extract Sample.two_links)]),
             Returned).
Proof.
  assert (Hsame : same_answers Sample.breaking Sample.breaking)
    by (repeat split; reflexivity).
  split; [exact Hsame|].
  rewrite (proj1 (X15_part001_agrees Sample.breaking Sample.breaking true 10
                    (Parsed (JObj [("url", JStr Sample.home)]))
                    Hsame (fun _ => eq_refl) eq_refl)).
  - reflexivity.
  - discriminate.
Defined.



(** ** The order of events, completed *)

Lemma session_stops (env : Env) (fuel : nat) (url : json)
    (r : run) (pre : list action) (a : action) (post : list action) :
  session env fuel url = Some r ->
  trace r = pre ++ a :: post ->
  stops_loop a = true ->
  Forall (fun b => loop_action b = false) post.
Proof.
  intros Hs Heq Ha. apply session_shapes in Hs.
  assert (Htail_ok : forall tail,
             Forall (fun b => loop_action b = false) tail ->
             Forall (fun b => stops_loop b = false) tail).
  { intros tail Ht. eapply Forall_impl; [exact Ht|].
    intros [| | |[] []| |? []|]; simpl; congruence. }
  destruct (final r) as [st|] eqn:Hf.
  - destruct (session_loop env url r st Hs Hf)
      as (b & fuel' & c & acts & tail & _ & Hloop & Htrace & Htail).
    destruct (loop_ending _ _ _ _ _ _ Hloop) as (body & Hbody & Hend).
    simpl in Hend. rewrite Htrace in Heq.
    destruct Hend as [[_ ->]|[[_ [v ->]]|[_ [v ->]]]].
    + exfalso.
      eapply (no_split_at stops_loop); [| |exact Heq]; [|exact Ha].
      repeat (apply Forall_cons; split; [reflexivity|]).
      apply Forall_app. split; [exact Hbody | now apply Htail_ok].
    + rewrite <- !app_assoc in Heq. simpl in Heq.
      change (Launch true :: NewPage true
              :: body ++ Send (Visiting v) false :: tail)
        with ((Launch true :: NewPage true :: body)
              ++ Send (Visiting v) false :: tail) in Heq.
      apply (split_at_unique stops_loop) in Heq as (_ & _ & ->);
        [exact Htail| |now apply Htail_ok|exact Ha].
      repeat (apply Forall_cons; split; [reflexivity|]). exact Hbody.
    + rewrite <- !app_assoc in Heq. simpl in Heq.
      change (Launch true :: NewPage true :: body ++ Content v None :: tail)
        with ((Launch true :: NewPage true :: body)
              ++ Content v None :: tail) in Heq.
      apply (split_at_unique stops_loop) in Heq as (_ & _ & ->);
        [exact Htail| |now apply Htail_ok|exact Ha].
      repeat (apply Forall_cons; split; [reflexivity|]). exact Hbody.
  - exfalso.
    eapply (no_split_at stops_loop); [| |exact Heq]; [|exact Ha].
    apply Htail_ok. exact (session_without_loop env url r Hs Hf).
Qed.

Lemma session_fifo (env : Env) (fuel : nat) (url : json) (r : run)
    (st : state) (baseUrl : string) :
  session env fuel url = Some r ->
  final r = Some st ->
  URL_origin env url = Some baseUrl ->
  shifted (trace r) ++ urlQueue st
  = url :: discovered env baseUrl JSSet.empty (trace r).
Proof.
  intros Hs Hf Ho. apply session_shapes in Hs.
  destruct (session_loop env url r st Hs Hf)
    as (b & fuel' & c & acts & tail & Ho' & Hloop & Htrace & Htail).
  assert (b = baseUrl) as -> by congruence.
  apply loop_fifo in Hloop. simpl in Hloop.
  rewrite Htrace.
  change ([Launch true; NewPage true] ++ acts ++ tail)
    with (Launch true :: NewPage true :: acts ++ tail).
  change (shifted (Launch true :: NewPage true :: acts ++ tail))
    with (shifted (acts ++ tail)).
  change (discovered env baseUrl JSSet.empty
            (Launch true :: NewPage true :: acts ++ tail))
    with (discovered env baseUrl JSSet.empty (acts ++ tail)).
  rewrite shifted_inert, discovered_inert by exact Htail.
  exact Hloop.
Qed.

(** C7 (amended).  Within one session the handler sends one [visiting]
    event per shift of a URL that the visited set does not hold, and none
    for a shift of a URL it holds; every navigation comes right after the
    delivery of the [visiting] event of its URL, and every delivered event
    is followed by its navigation; an event that cannot be sent ends the
    loop: no shift, event, navigation or reading follows it.  The events
    follow the order of the shifts, and the shifts are first in, first out
    over the queue: the URLs shifted, followed by those left in the queue,
    are the seed followed by the links accepted on each page read, page
    after page.  Nothing comes after the sending of the final result. *)
Theorem C7_event_order (env : Env) (fuel : nat) (url : json) (r : run) :
  session env fuel url = Some r ->
  visiting_sends (trace r) = shifted_fresh (trace r)
  /\ visiting_events (trace r) = navigations (trace r)
  /\ (forall pre u ok post,
         trace r = pre ++ Goto u ok :: post ->
         exists pre', pre = pre' ++ [Send (Visiting u) true])
  /\ (forall pre u post,
         trace r = pre ++ Send (Visiting u) false :: post ->
         Forall (fun b => loop_action b = false) post)
  /\ visiting_events (trace r) `sublist_of` shifted (trace r)
  /\ (forall st baseUrl,
         final r = Some st -> URL_origin env url = Some baseUrl ->
         shifted (trace r) ++ urlQueue st
         = url :: discovered env baseUrl JSSet.empty (trace r))
  /\ (final r = None -> shifted (trace r) = [])
  /\ (forall pre d ok post,
         trace r = pre ++ Send (ScrapedData d) ok :: post -> post = []).
Proof.
  intros Hs.
  destruct (session_announces env fuel url r Hs) as (H1 & H2 & H3 & H4 & H5).
  split; [exact H1|]. split; [exact H2|]. split; [exact H3|].
  split.
  { intros pre u post Heq.
    exact (session_stops env fuel url r pre _ post Hs Heq eq_refl). }
  split; [exact H4|]. split.
  { intros st baseUrl Hf Ho. exact (session_fifo env fuel url r st baseUrl Hs Hf Ho). }
  split; [|exact H5].
  intros Hf. apply session_shapes in Hs.
  pose proof (session_without_loop env url r Hs Hf) as Hnone.
  rewrite <- (app_nil_l (trace r)). now rewrite shifted_inert.
Qed.

Lemma C7_event_order_witness :
  exists r st,
    session (Sample.site Sample.repeated_links) 10 (JStr Sample.home) = Some r
    /\ final r = Some st
    /\ visiting_sends (trace r) = shifted_fresh (trace r)
    /\ visiting_events (trace r) = navigations (trace r)
    /\ shifted (trace r) ++ urlQueue st
       = [JStr Sample.home; JStr Sample.page2; JStr Sample.page2;
          JStr Sample.page3; JStr Sample.page3].
Proof.
  eexists. eexists. split; [reflexivity|]. split; [reflexivity|].
  pose proof (C7_event_order (Sample.site Sample.repeated_links) 10
                (JStr Sample.home) _ eq_refl)
    as (H1 & H2 & _ & _ & _ & H6 & _).
  split; [exact H1|]. split; [exact H2|].
  exact (H6 _ Sample.origin eq_refl eq_refl).
Defined.
